(** * vscode-firstcommit: the sorted list, the counting helpers and the
      provider registries

    A shallow embedding of [src/vs/base/common/numbers.ts] (the functions
    [count] and [countToArray] and the class [SortedList]) and of the
    provider aggregation that the language-feature tests exercise.

    Conventions.
    - A JavaScript [number] is an integer of [Z]; where the code does
      arithmetic on numbers ([count]), the result is rounded as a double
      rounds it. An array is a [list].
    - A TypeScript type [T] is a Rocq type with an instance of [JsType],
      which gives its [null], its [undefined] and JavaScript's [ToBoolean].
    - A method that can throw returns a [Result]; a method that mutates
      [this] returns the new object. *)

From Stdlib Require Import ZArith String List Bool Lia Sorted Permutation.
Import ListNotations.

Open Scope Z_scope.

(** ** Results of calls that may throw *)

Inductive Result (A : Type) : Type :=
| Return (a : A)
| Throw (message : string).

Arguments Return {A} a.
Arguments Throw {A} message%_string.

Definition bind {A B : Type} (c : Result A) (k : A -> Result B) : Result B :=
  match c with
  | Return a => k a
  | Throw message => Throw message
  end.

Notation "x <- c ;; k" := (bind c (fun x => k))
  (at level 61, c at next level, right associativity).

Definition throws {A : Type} (c : Result A) : Prop :=
  exists message, c = Throw message.

(** ** JavaScript values *)

(** What the code uses of a TypeScript type: every type is inhabited by
    [null] and [undefined], and [!x] is [negb (toBoolean x)]. *)
Class JsType (T : Type) : Type := {
  null : T;
  undefined : T;
  toBoolean : T -> bool;
  toBoolean_null : toBoolean null = false;
  toBoolean_undefined : toBoolean undefined = false
}.

(** The relational operator [first < second]; [first > second] is
    [lessThan second first]. *)
Class JsRelational (T : Type) : Type := {
  lessThan : T -> T -> bool
}.

(** The primitive part of a type, with the truthiness of its values. *)
Class Primitive (P : Type) : Type := {
  truthy : P -> bool
}.

#[export] Instance Primitive_number : Primitive Z :=
  {| truthy := fun n => negb (n =? 0) |}.

#[export] Instance Primitive_string : Primitive string :=
  {| truthy := fun s => negb (String.eqb s EmptyString) |}.

#[export] Instance Primitive_boolean : Primitive bool :=
  {| truthy := fun b => b |}.

(** A primitive type closed under [null] and [undefined]. *)
Inductive Js (P : Type) : Type :=
| js_undefined
| js_null
| js (p : P).

Arguments js_undefined {P}.
Arguments js_null {P}.
Arguments js {P} p.

Definition Js_toBoolean {P : Type} `{Primitive P} (x : Js P) : bool :=
  match x with
  | js_undefined => false
  | js_null => false
  | js p => truthy p
  end.

#[export] Instance JsType_Js (P : Type) `{Primitive P} : JsType (Js P) :=
  {| null := js_null;
     undefined := js_undefined;
     toBoolean := Js_toBoolean;
     toBoolean_null := eq_refl;
     toBoolean_undefined := eq_refl |}.

(** [ToNumber] on the type [number]: [undefined] is NaN ([None]), [null]
    is [0]. *)
Definition toNumber (x : Js Z) : option Z :=
  match x with
  | js_undefined => None
  | js_null => Some 0
  | js n => Some n
  end.

(** [x < y] on numbers: false as soon as one side is NaN. *)
#[export] Instance JsRelational_number : JsRelational (Js Z) :=
  {| lessThan := fun x y =>
       match toNumber x, toNumber y with
       | Some a, Some b => a <? b
       | _, _ => false
       end |}.

(** [Math.max] on two numbers. *)
Definition Math_max (a b : Z) : Z := Z.max a b.

(** [array.splice(start, deleteCount, ...items)] for a non-negative
    [start]: both [start] and the deleted range are clamped to the array. *)
Definition splice {A : Type} (start deleteCount : nat) (items array : list A)
  : list A :=
  firstn start array ++ items ++ skipn (start + deleteCount) array.

(** ** vs/base/common/arrays *)

Module Arrays.
Section BinarySearch.
Context {T : Type} `{JsType T}.
Variables (array : list T) (key : T) (comparator : T -> T -> Z).

(** Modelled from the spec: the loop of [Arrays.binarySearch] (see
    below), on the window [low .. high]. The window shrinks at every
    turn, so [fuel] at least its size is never used up (see
    [search_fuel]); an index outside the array reads [undefined]. *)
Fixpoint search (fuel : nat) (low high : Z) : Z :=
  match fuel with
  | O => - (low + 1)
  | S fuel' =>
      if low <=? high then
        let mid := Z.quot (low + high) 2 in
        let comp := comparator (nth (Z.to_nat mid) array undefined) key in
        if comp <? 0 then search fuel' (mid + 1) high
        else if 0 <? comp then search fuel' low (mid - 1)
        else mid
      else - (low + 1)
  end.

(** Modelled from the spec: [Arrays.binarySearch] of
    vs/base/common/arrays, which [SortedList.indexOfKey] calls, is not
    among the sources. The spec describes the lookup as an "O(log n)
    binary-search key lookup" in which "absent keys yield a not found
    sentinel", and [indexOfKey] clamps the result with
    [Math.max(-1, .)]: a bisection on [array] that compares the middle
    element with [key], returns the index where the comparator gives
    [0], and a negative number when the window becomes empty. *)
Definition binarySearch : Z :=
  search (length array) 0 (Z.of_nat (length array) - 1).

End BinarySearch.
End Arrays.

(** ** count and countToArray *)

(** The numbers that [count] works with are integers held in doubles.
    A double holds every integer up to [2 ^ 53] in magnitude; a larger
    one it holds only when 53 binary digits and a power of two make it
    up. [roundToDouble z] is the double nearest to the integer [z], the
    one with the even last digit when two are as near: what an
    arithmetic operation returns when its exact result is [z]. (The
    doubles end near [2 ^ 1024]; the sums and differences below do not
    get there from numbers that are doubles.) *)
Definition roundToDouble (z : Z) : Z :=
  let m := Z.abs z in
  if m <=? 2 ^ 53 then z
  else
    let e := Z.log2 m - 52 in
    let q := m / 2 ^ e in
    let r := m mod 2 ^ e in
    let half := 2 ^ (e - 1) in
    let q' := if r <? half then q
              else if half <? r then q + 1
              else if Z.even q then q else q + 1 in
    Z.sgn z * (q' * 2 ^ e).

(** [a + b] and [a - b] on numbers. *)
Definition Number_add (a b : Z) : Z := roundToDouble (a + b).
Definition Number_sub (a b : Z) : Z := roundToDouble (a - b).

(** A callback that is called with the index and acts on some state. *)
Definition NumberCallback (State : Type) : Type := Z -> State -> State.

(** The two signatures of [count]. *)
Inductive CountArguments (State : Type) : Type :=
| count_to (to : Z) (callback : NumberCallback State)
| count_from_to (from to : Z) (callback : NumberCallback State).

Arguments count_to {State} to callback.
Arguments count_from_to {State} from to callback.

(** The [for] loop of [count]; [None] when [fuel] turns are not enough
    to leave it. *)
Fixpoint count_loop {State : Type} (fuel : nat) (op : Z -> Z)
  (cmp : Z -> Z -> bool) (to : Z) (callback : NumberCallback State)
  (i : Z) (state : State) : option State :=
  match fuel with
  | O => None
  | S fuel' =>
      if cmp i to
      then count_loop fuel' op cmp to callback (op i) (callback i state)
      else Some state
  end.

Definition count {State : Type} (fuel : nat) (arguments : CountArguments State)
  (state : State) : option State :=
  let '(from, to, callback) :=
    match arguments with
    | count_from_to from to callback => (from, to, callback)
    | count_to to callback => (0, to, callback)
    end in
  let op := if from <=? to then (fun i => Number_add i 1)
            else (fun i => Number_sub i 1) in
  let cmp := if from <=? to then (fun a b => a <? b) else (fun a b => a >? b) in
  count_loop fuel op cmp to callback from state.

(** [to] is [None] when the second argument is left out. *)
Definition countToArray (fuel : nat) (fromOrTo : Z) (to : option Z)
  : option (list Z) :=
  let result : list Z := [] in
  let fn : NumberCallback (list Z) := fun i result => result ++ [i] in
  match to with
  | None => count fuel (count_to fromOrTo fn) result
  | Some to => count fuel (count_from_to fromOrTo to fn) result
  end.

(** ** ListIterator and SortedListIterator *)

(** An iterator is given the array it walks when it is made; the array
    is taken as it is then, and is not changed while the iterator is
    used. A field set to [null] by [dispose] is [None], and reading the
    length or an element of [null] throws a [TypeError]. *)

Module ListIterator.
Section Class.
Context {TValue : Type} `{JsType TValue}.

Record t : Type := {
  values : option (list TValue);
  index : Z
}.

Definition constructor (values : list TValue) : t :=
  {| values := Some values; index := -1 |}.

Definition current (this : t) : Result TValue :=
  if index this <? 0 then Return null
  else
    match values this with
    | None => Throw "TypeError"
    | Some values =>
        if Z.of_nat (length values) <? index this then Return null
        else Return (nth (Z.to_nat (index this)) values undefined)
    end.

(** [this.index++] comes first: the iterator has moved on even when the
    comparison that follows throws. *)
Definition moveNext (this : t) : t * Result bool :=
  let this' := {| values := values this; index := index this + 1 |} in
  (this',
   match values this' with
   | None => Throw "TypeError"
   | Some values => Return (index this' <? Z.of_nat (length values))
   end).

Definition hasNext (this : t) : Result bool :=
  match values this with
  | None => Throw "TypeError"
  | Some values => Return (index this + 1 <? Z.of_nat (length values))
  end.

Definition reset (this : t) : t :=
  {| values := values this; index := -1 |}.

Definition dispose (this : t) : t :=
  {| values := None; index := index this |}.

(** [n] calls of [moveNext], one after the other. *)
Definition moveNextTimes (n : nat) (this : t) : t :=
  Nat.iter n (fun it => fst (moveNext it)) this.

End Class.

Arguments t : clear implicits.

End ListIterator.

(** The objects [{ key, value }] that a [SortedListIterator] hands out. *)
Record KeyValue (TKey TValue : Type) : Type := {
  key : TKey;
  value : TValue
}.

Arguments key {TKey TValue} _.
Arguments value {TKey TValue} _.

Module SortedListIterator.
Section Class.
Context {TKey TValue : Type} `{JsType TKey} `{JsType TValue}.

Record t : Type := {
  keys : option (list TKey);
  values : option (list TValue);
  index : Z
}.

Definition constructor (keys : list TKey) (values : list TValue) : t :=
  {| keys := Some keys; values := Some values; index := -1 |}.

(** The result is [null] ([js_null]) or an object. *)
Definition current (this : t) : Result (Js (KeyValue TKey TValue)) :=
  if index this <? 0 then Return js_null
  else
    match keys this with
    | None => Throw "TypeError"
    | Some keys =>
        if Z.of_nat (length keys) <? index this then Return js_null
        else
          match values this with
          | None => Throw "TypeError"
          | Some values =>
              Return (js {| key := nth (Z.to_nat (index this)) keys undefined;
                            value := nth (Z.to_nat (index this)) values
                                       undefined |})
          end
    end.

Definition moveNext (this : t) : t * Result bool :=
  let this' :=
    {| keys := keys this; values := values this; index := index this + 1 |} in
  (this',
   match keys this' with
   | None => Throw "TypeError"
   | Some keys => Return (index this' <? Z.of_nat (length keys))
   end).

Definition hasNext (this : t) : Result bool :=
  match keys this with
  | None => Throw "TypeError"
  | Some keys => Return (index this + 1 <? Z.of_nat (length keys))
  end.

Definition reset (this : t) : t :=
  {| keys := keys this; values := values this; index := -1 |}.

Definition dispose (this : t) : t :=
  {| keys := None; values := None; index := index this |}.

(** [n] calls of [moveNext], one after the other. *)
Definition moveNextTimes (n : nat) (this : t) : t :=
  Nat.iter n (fun it => fst (moveNext it)) this.

End Class.

Arguments t : clear implicits.

End SortedListIterator.

(** ** SortedList *)

Module SortedList.
Section Class.
Context {TKey TValue : Type} `{JsType TKey} `{JsType TValue}.

Definition Comparator : Type := TKey -> TKey -> Z.

Definition DEFAULT_COMPARATOR `{JsRelational TKey} : Comparator :=
  fun first second =>
    if lessThan first second then -1
    else if lessThan second first then 1
    else 0.

Record t : Type := {
  keys : list TKey;
  values : list TValue;
  comparator : Comparator
}.

(** [comparator || SortedList.DEFAULT_COMPARATOR]: a function is truthy,
    a missing argument is [undefined]. *)
Definition constructor `{JsRelational TKey} (comparator : option Comparator)
  : t :=
  {| keys := [];
     values := [];
     comparator := match comparator with
                   | Some c => c
                   | None => DEFAULT_COMPARATOR
                   end |}.

Definition count (this : t) : nat := length (keys this).

Definition indexOfKey (this : t) (key : TKey) : Result Z :=
  if negb (toBoolean key) then Throw "Key must be defined."
  else Return (Math_max (-1)
                 (Arrays.binarySearch (keys this) key (comparator this))).

Definition getValue (this : t) (key : TKey) : Result TValue :=
  if negb (toBoolean key) then Throw "Key must be defined."
  else
    index <- indexOfKey this key ;;
    if 0 <=? index then Return (nth (Z.to_nat index) (values this) undefined)
    else Return null.

(** The [while] loop of [add], started at [position] on the keys from
    [position] on. *)
Fixpoint scan (cmp : Comparator) (key : TKey) (rest : list TKey)
  (position : nat) : nat :=
  match rest with
  | [] => position
  | k :: rest' =>
      if 0 <? cmp key k then scan cmp key rest' (S position)
      else position
  end.

Definition add (this : t) (key : TKey) (value : TValue) : Result t :=
  if negb (toBoolean key) || negb (toBoolean value)
  then Throw "Key and value must be defined."
  else
    let position := scan (comparator this) key (keys this) 0 in
    Return {| keys := splice position 0 [key] (keys this);
              values := splice position 0 [value] (values this);
              comparator := comparator this |}.

Definition remove (this : t) (key : TKey) : Result (bool * t) :=
  if negb (toBoolean key) then Throw "Key must be defined."
  else
    index <- indexOfKey this key ;;
    let this' :=
      if 0 <=? index then
        {| keys := splice (Z.to_nat index) 1 [] (keys this);
           values := splice (Z.to_nat index) 1 [] (values this);
           comparator := comparator this |}
      else this in
    Return (0 <=? index, this').

(** [index] is a number; the integers are the numbers that can index
    an array. *)
Definition getValueByIndex (this : t) (index : Z) : TValue :=
  if (0 <=? index) && (index <? Z.of_nat (length (values this)))
  then nth (Z.to_nat index) (values this) undefined
  else null.

Definition getKey (this : t) (index : Z) : TKey :=
  if (0 <=? index) && (index <? Z.of_nat (length (keys this)))
  then nth (Z.to_nat index) (keys this) undefined
  else null.

Definition getKeys (this : t) : ListIterator.t TKey :=
  ListIterator.constructor (keys this).

Definition getValues (this : t) : ListIterator.t TValue :=
  ListIterator.constructor (values this).

Definition getIterator (this : t) : SortedListIterator.t TKey TValue :=
  SortedListIterator.constructor (keys this) (values this).

(** *** Sequences of operations *)

Inductive Operation : Type :=
| Add (key : TKey) (value : TValue)
| Remove (key : TKey).

(** Every method throws before it touches [keys] or [values]: a call
    that throws leaves the list as it was. *)
Definition step (this : t) (o : Operation) : t :=
  match o with
  | Add key value =>
      match add this key value with
      | Return this' => this'
      | Throw _ => this
      end
  | Remove key =>
      match remove this key with
      | Return (_, this') => this'
      | Throw _ => this
      end
  end.

Definition run (this : t) (ops : list Operation) : t :=
  fold_left step ops this.

(** One step either leaves the list as it is, inserts a defined key
    with a defined value at the position of the scan, or deletes the
    entry at one index. *)
Inductive Stepped (this : t) : t -> Prop :=
| stepped_same : Stepped this this
| stepped_insert key value :
    toBoolean key = true -> toBoolean value = true ->
    Stepped this
      {| keys := splice (scan (comparator this) key (keys this) 0)
                   0 [key] (keys this);
         values := splice (scan (comparator this) key (keys this) 0)
                     0 [value] (values this);
         comparator := comparator this |}
| stepped_delete (index : nat) :
    Stepped this
      {| keys := splice index 1 [] (keys this);
         values := splice index 1 [] (values this);
         comparator := comparator this |}.

(** The list read as pairs of a key and its value, index by index. *)
Definition entries (this : t) : list (TKey * TValue) :=
  combine (keys this) (values this).

(** Every stored key and every stored value is truthy. *)
Definition all_defined (this : t) : Prop :=
  Forall (fun k => toBoolean k = true) (keys this)
  /\ Forall (fun v => toBoolean v = true) (values this).

(** *** Orders *)

(** [keys] is sorted non-decreasingly: an earlier key never compares
    greater than a later one. *)
Definition sorted (cmp : Comparator) (ks : list TKey) : Prop :=
  StronglySorted (fun a b => cmp a b <= 0) ks.

(** Neighbours in order; what [sorted] gives for adjacent keys. *)
Definition sorted_adjacent (cmp : Comparator) (ks : list TKey) : Prop :=
  Sorted (fun a b => cmp a b <= 0) ks.

Definition defined (x : TKey) : Prop := toBoolean x = true.

(** A comparator that is consistent on the keys a list can hold: the
    sign flips when the arguments are swapped, and "not greater" is
    transitive. *)
Record Consistent (cmp : Comparator) : Prop := {
  cmp_swap : forall a b, defined a -> defined b ->
    Z.sgn (cmp b a) = - Z.sgn (cmp a b);
  cmp_trans : forall a b c, defined a -> defined b -> defined c ->
    cmp a b <= 0 -> cmp b c <= 0 -> cmp a c <= 0
}.

(** A comparator under which only identical keys compare equal. *)
Definition Separating (cmp : Comparator) : Prop :=
  forall a b, defined a -> defined b -> cmp a b = 0 -> a = b.

End Class.

Arguments t : clear implicits.
Arguments Comparator : clear implicits.
Arguments Operation : clear implicits.

End SortedList.

(** ** SortedList with a comparator that may throw *)

(** A comparator is a function of the caller, and the default one
    applies [<], which throws a [TypeError] on a Symbol. [Partial] is the
    class again with comparators that return a number or throw; of the
    methods it has the four that can throw. With a comparator that
    always returns it is [SortedList] (see [Partial_indexOfKey_lift] and
    the lemmas after it). *)
Module Partial.

(** [first < second] with its error. *)
Class JsCompare (T : Type) : Type := {
  lessThanOrThrow : T -> T -> Result bool
}.

Section Class.
Context {TKey TValue : Type} `{JsType TKey} `{JsType TValue}.

Definition Comparator : Type := TKey -> TKey -> Result Z.

Definition DEFAULT_COMPARATOR `{JsCompare TKey} : Comparator :=
  fun first second =>
    less <- lessThanOrThrow first second ;;
    if less then Return (-1)
    else
      greater <- lessThanOrThrow second first ;;
      if greater then Return 1 else Return 0.

(** Modelled from the spec: the loop of [Arrays.binarySearch], as
    [Arrays.search], with a comparator that may throw: the error leaves
    the search. *)
Fixpoint search (array : list TKey) (key : TKey) (comparator : Comparator)
  (fuel : nat) (low high : Z) : Result Z :=
  match fuel with
  | O => Return (- (low + 1))
  | S fuel' =>
      if low <=? high then
        let mid := Z.quot (low + high) 2 in
        comp <- comparator (nth (Z.to_nat mid) array undefined) key ;;
        if comp <? 0 then search array key comparator fuel' (mid + 1) high
        else if 0 <? comp then search array key comparator fuel' low (mid - 1)
        else Return mid
      else Return (- (low + 1))
  end.

(** Modelled from the spec: [Arrays.binarySearch], as above. *)
Definition binarySearch (array : list TKey) (key : TKey)
  (comparator : Comparator) : Result Z :=
  search array key comparator (length array) 0 (Z.of_nat (length array) - 1).

Record t : Type := {
  keys : list TKey;
  values : list TValue;
  comparator : Comparator
}.

Definition constructor `{JsCompare TKey} (comparator : option Comparator)
  : t :=
  {| keys := [];
     values := [];
     comparator := match comparator with
                   | Some c => c
                   | None => DEFAULT_COMPARATOR
                   end |}.

Definition indexOfKey (this : t) (key : TKey) : Result Z :=
  if negb (toBoolean key) then Throw "Key must be defined."
  else
    found <- binarySearch (keys this) key (comparator this) ;;
    Return (Math_max (-1) found).

Definition getValue (this : t) (key : TKey) : Result TValue :=
  if negb (toBoolean key) then Throw "Key must be defined."
  else
    index <- indexOfKey this key ;;
    if 0 <=? index then Return (nth (Z.to_nat index) (values this) undefined)
    else Return null.

(** The [while] loop of [add]. *)
Fixpoint scan (cmp : Comparator) (key : TKey) (rest : list TKey)
  (position : nat) : Result nat :=
  match rest with
  | [] => Return position
  | k :: rest' =>
      comp <- cmp key k ;;
      if 0 <? comp then scan cmp key rest' (S position)
      else Return position
  end.

Definition add (this : t) (key : TKey) (value : TValue) : Result t :=
  if negb (toBoolean key) || negb (toBoolean value)
  then Throw "Key and value must be defined."
  else
    position <- scan (comparator this) key (keys this) 0 ;;
    Return {| keys := splice position 0 [key] (keys this);
              values := splice position 0 [value] (values this);
              comparator := comparator this |}.

Definition remove (this : t) (key : TKey) : Result (bool * t) :=
  if negb (toBoolean key) then Throw "Key must be defined."
  else
    index <- indexOfKey this key ;;
    let this' :=
      if 0 <=? index then
        {| keys := splice (Z.to_nat index) 1 [] (keys this);
           values := splice (Z.to_nat index) 1 [] (values this);
           comparator := comparator this |}
      else this in
    Return (0 <=? index, this').

End Class.

Arguments t : clear implicits.
Arguments Comparator : clear implicits.

(** A list of [SortedList], its comparator seen as one that never
    throws. *)
Definition lift {TKey TValue : Type} (this : SortedList.t TKey TValue)
  : t TKey TValue :=
  {| keys := SortedList.keys this;
     values := SortedList.values this;
     comparator := fun first second =>
                     Return (SortedList.comparator this first second) |}.

(** Keys that are numbers or Symbols. *)
Inductive NumberOrSymbol : Type :=
| a_number (n : Z)
| a_symbol (description : nat).

#[global] Instance Primitive_NumberOrSymbol : Primitive NumberOrSymbol :=
  {| truthy := fun x => match x with
                        | a_number n => negb (n =? 0)
                        | a_symbol _ => true
                        end |}.

(** [x < y]: converting a Symbol to a number throws; [undefined] is NaN
    and [null] is [0], as in [toNumber]. *)
#[global] Instance JsCompare_NumberOrSymbol : JsCompare (Js NumberOrSymbol) :=
  {| lessThanOrThrow := fun x y =>
       match x, y with
       | js (a_symbol _), _ => Throw "TypeError"
       | _, js (a_symbol _) => Throw "TypeError"
       | js (a_number a), js (a_number b) => Return (a <? b)
       | js (a_number a), js_null => Return (a <? 0)
       | js_null, js (a_number b) => Return (0 <? b)
       | js_null, js_null => Return false
       | js_undefined, _ => Return false
       | _, js_undefined => Return false
       end |}.

End Partial.

(** ** Number keys: comparators and a list to try the claims on *)

(** Numbers that differ by at most one compare equal. *)
Definition withinOne : SortedList.Comparator (Js Z) :=
  fun first second =>
    match first, second with
    | js a, js b => if Z.abs (a - b) <=? 1 then 0 else a - b
    | _, _ => 0
    end.

(** Numbers compared by their absolute value. *)
Definition byMagnitude : SortedList.Comparator (Js Z) :=
  fun first second =>
    match first, second with
    | js a, js b => Z.abs a - Z.abs b
    | _, _ => 0
    end.

(** Five operations on a list with the default comparator; the list
    ends as keys [3, 3, 7] with values [31, 30, 70]. *)
Definition sampleOps : list (SortedList.Operation (Js Z) (Js Z)) :=
  [SortedList.Add (js 5) (js 50); SortedList.Add (js 3) (js 30);
   SortedList.Add (js 7) (js 70); SortedList.Add (js 3) (js 31);
   SortedList.Remove (js 5)].

Definition sampleList : SortedList.t (Js Z) (Js Z) :=
  SortedList.run (SortedList.constructor None) sampleOps.

(** Three operations that leave the keys [3, 5, 7], each once. *)
Definition distinctOps : list (SortedList.Operation (Js Z) (Js Z)) :=
  [SortedList.Add (js 5) (js 50); SortedList.Add (js 3) (js 30);
   SortedList.Add (js 7) (js 70)].


(** ** Provider registries *)

Module LanguageFeatures.
Section Registry.
Context {Selector Model Request Item : Type}.

(** Whether the providers registered for a selector serve a model. *)
Variable matches : Selector -> Model -> bool.

(** Modelled from the spec: the provider registries ([OutlineRegistry],
    [DeclarationRegistry], [ReferenceRegistry], ...) and the functions
    that merge the providers' results ([getOutlineEntries],
    [getDeclarationsAtPosition], [findReferences], ...), which the tests
    import from vs/editor/contrib, are not among the sources. The spec
    describes each registry as "aggregating
    zero or more externally supplied callables, tolerating callable
    failures by excluding only the failing result, and preserving
    most-recently-registered-first ordering when merging multiple
    providers' results for the same request". A provider is such a
    callable: it returns its results or throws. *)
Definition Provider : Type := Request -> Result (list Item).

(** Modelled from the spec: a registration, a provider with the selector
    it was registered for. *)
Record Entry : Type := {
  selector : Selector;
  provider : Provider
}.

(** Modelled from the spec: a registry, the registrations in the order
    in which they were made, the oldest first. *)
Definition Registry : Type := list Entry.

(** Modelled from the spec: registering adds one callable to those the
    registry already holds. *)
Definition register (registry : Registry) (selector : Selector)
  (provider : Provider) : Registry :=
  registry ++ [{| selector := selector; provider := provider |}].

(** Modelled from the spec: the providers that serve a model, "most
    recently registered first". *)
Definition all (registry : Registry) (model : Model) : list Provider :=
  map provider (filter (fun e => matches (selector e) model) (rev registry)).

(** Modelled from the spec: the providers are called in turn and their
    results are put one after the other; of a provider that throws
    "only the failing result" is left out. *)
Fixpoint collect (providers : list Provider) (request : Request)
  : list Item :=
  match providers with
  | [] => []
  | provider :: rest =>
      match provider request with
      | Return items => items ++ collect rest request
      | Throw _ => collect rest request
      end
  end.

(** Modelled from the spec: the answer to a request on a model. *)
Definition ask (registry : Registry) (model : Model) (request : Request)
  : list Item :=
  collect (all registry model) request.

(** Modelled from the spec: the merge of given results, in their
    order. *)
Definition merge (results : list (list Item)) : list Item := concat results.

(** The results of the providers that do not throw, in the order of the
    providers. *)
Fixpoint successes (providers : list Provider) (request : Request)
  : list (list Item) :=
  match providers with
  | [] => []
  | provider :: rest =>
      match provider request with
      | Return items => items :: successes rest request
      | Throw _ => successes rest request
      end
  end.

Definition fails (provider : Provider) (request : Request) : Prop :=
  throws (provider request).

End Registry.
End LanguageFeatures.

(** The tests register every provider for one selector, which serves
    the one model. *)
Definition anyModel : unit -> unit -> bool := fun _ _ => true.

Definition firstProvider : @LanguageFeatures.Provider unit string :=
  fun _ => Return ["first"%string].

Definition secondProvider : @LanguageFeatures.Provider unit string :=
  fun _ => Return ["second"%string].

Definition evilProvider : @LanguageFeatures.Provider unit string :=
  fun _ => Throw "evil provider".


(** ** html and plain (extensions/vscode-api-tests/src/utils.ts) *)

Module Utils.

(** A part of a symbol's display text, from the protocol of the language
    service: of its fields the code reads [text] and [kind]. *)
Record SymbolDisplayPart : Type := {
  text : string;
  kind : string
}.

Section Elements.
(** The type [any] of [customStyle]; the functions here never set it. *)
Context {any : Type}.

(** An [IHTMLContentElement]: every property is optional, and [None] is a
    property that the object does not have. *)
#[warnings="-register-all"]
Inductive IHTMLContentElement : Type :=
| element (formattedText : option string)
          (text : option string)
          (className : option string)
          (style : option string)
          (customStyle : option any)
          (tagName : option string)
          (children : option (list IHTMLContentElement))
          (isText : option bool).

(** The object literal [{}]. *)
Definition emptyElement : IHTMLContentElement :=
  element None None None None None None None None.

Definition elementText (e : IHTMLContentElement) : option string :=
  match e with element _ text _ _ _ _ _ _ => text end.

Definition elementClassName (e : IHTMLContentElement) : option string :=
  match e with element _ _ className _ _ _ _ _ => className end.

Definition elementTagName (e : IHTMLContentElement) : option string :=
  match e with element _ _ _ _ _ tagName _ _ => tagName end.

Definition elementChildren (e : IHTMLContentElement)
  : option (list IHTMLContentElement) :=
  match e with element _ _ _ _ _ _ children _ => children end.

(** [parts] may be [null] or [undefined]; an array, even an empty one,
    is truthy. [className] is [None] when the argument is left out, and
    then it is [''] by default. *)
Definition html (parts : Js (list SymbolDisplayPart))
  (className : option string) : IHTMLContentElement :=
  let className := match className with
                   | Some c => c
                   | None => EmptyString
                   end in
  match parts with
  | js parts =>
      let htmlParts :=
        map (fun part =>
               element None (Some (text part)) (Some (kind part)) None None
                 (Some "span"%string) None None)
          parts in
      element None None (Some ("ts-symbol " ++ className)%string) None None
        (Some "div"%string) (Some htmlParts) None
  | _ => emptyElement
  end.

End Elements.

Definition plain (parts : Js (list SymbolDisplayPart)) : string :=
  match parts with
  | js parts => String.concat "" (map text parts)
  | _ => EmptyString
  end.

End Utils.

(** ** The whitespace transform (build/lib/style.js) *)

Module Style.

(** The text of a file is the list of its UTF-16 code units. *)
Definition Text : Type := list N.

Definition TAB : N := 9%N.
Definition LF : N := 10%N.
Definition CR : N := 13%N.
Definition SPACE : N := 32%N.

(** The options read by the transform, by their truthiness. *)
Record Options : Type := {
  complain : bool;
  whitespace : bool
}.

(** A file of the stream. [contents] is the text that the buffer of the
    file decodes to ([file.contents.toString('utf8')]) and that the
    transform encodes again ([new Buffer(.., 'utf8')]); the bytes
    themselves are not modelled, so nothing is said here about a buffer
    that is not UTF-8, whose bad bytes the decoding replaces. *)
Record File : Type := {
  isDirectory : bool;
  path : Text;
  contents : Text
}.

(** [contents.split(/\r\n|\r|\n/)]: [line] is the line read so far. *)
Fixpoint splitLines (line contents : Text) : list Text :=
  match contents with
  | [] => [line]
  | c :: rest =>
      if (c =? CR)%N then
        match rest with
        | d :: rest' =>
            if (d =? LF)%N then line :: splitLines [] rest'
            else line :: splitLines [] rest
        | [] => line :: splitLines [] rest
        end
      else if (c =? LF)%N then line :: splitLines [] rest
      else splitLines (line ++ [c]) rest
  end.

Definition split (contents : Text) : list Text := splitLines [] contents.

(** [lines.join('\n')]. *)
Fixpoint join (lines : list Text) : Text :=
  match lines with
  | [] => []
  | [line] => line
  | line :: rest => line ++ LF :: join rest
  end.

(** Whether [line] starts with [n] spaces: the regular expression
    [/^\ {n}/] matches. *)
Fixpoint startsWithSpaces (n : nat) (line : Text) : bool :=
  match n with
  | O => true
  | S n' =>
      match line with
      | c :: rest => (c =? SPACE)%N && startsWithSpaces n' rest
      | [] => false
      end
  end.

(** [line.replace(/^\ {n}/, tabs)] where [tabs] is a string of [t]
    tabs. *)
Definition replaceSpaces (n t : nat) (line : Text) : Text :=
  if startsWithSpaces n line then repeat TAB t ++ skipn n line else line.

(** The body of the loop over the lines. *)
Definition convertLine (line : Text) : Text :=
  let line := replaceSpaces 28 7 line in
  let line := replaceSpaces 24 6 line in
  let line := replaceSpaces 20 5 line in
  let line := replaceSpaces 16 4 line in
  let line := replaceSpaces 12 3 line in
  let line := replaceSpaces 8 2 line in
  let line := replaceSpaces 4 1 line in
  line.

(** The function given to [es.mapSync], as far as the file that it
    returns goes: what it writes to the console is left out. With
    [opts.complain] the file is only looked at. *)
Definition style (opts : Options) (file : File) : File :=
  if isDirectory file then file
  else if complain opts then file
  else
    let lines := split (contents file) in
    let lines := if whitespace opts then map convertLine lines else lines in
    {| isDirectory := isDirectory file;
       path := path file;
       contents := join lines |}.

(** A line holds no carriage return and no line feed. *)
Definition oneLine (line : Text) : Prop :=
  Forall (fun c => c <> CR /\ c <> LF) line.

(** [line] does not start with a space. *)
Definition noSpaceFirst (line : Text) : Prop :=
  match line with
  | c :: _ => c <> SPACE
  | [] => True
  end.

(** A file with text in it, and the two settings that rewrite it. *)
Definition sampleFile : File :=
  {| isDirectory := false;
     path := [];
     contents := [32; 32; 32; 32; 97; 13; 10; 98]%N |}.

End Style.


(** * Arrays as lists *)

Section ListFacts.
Context {A : Type}.
Implicit Types (l : list A) (P : A -> Prop).

Lemma Forall_prefix P n l : Forall P l -> Forall P (firstn n l).
Proof.
  intros Hl. revert n.
  induction Hl as [|x l Hx Hl IH]; intros [|n]; simpl; auto.
Qed.

Lemma Forall_suffix P n l : Forall P l -> Forall P (skipn n l).
Proof.
  intros Hl. revert n.
  induction Hl as [|x l Hx Hl IH]; intros [|n]; simpl; auto.
Qed.

Lemma nth_nth_error (d : A) l i x :
  nth_error l i = Some x -> nth i l d = x.
Proof.
  revert i.
  induction l as [|y l IH]; intros [|i]; simpl; try discriminate.
  - now intros [= ->].
  - apply IH.
Qed.

Lemma nth_error_in_range l i :
  (i < length l)%nat -> exists x, nth_error l i = Some x.
Proof.
  intros Hi.
  destruct (nth_error l i) as [x|] eqn:E; [now exists x|].
  apply nth_error_None in E. lia.
Qed.

End ListFacts.

(** * Properties of the sorted list *)

Section SortedListFacts.
Import SortedList.
Context {TKey TValue : Type} `{JsType TKey} `{JsType TValue}.

Implicit Types (this : t TKey TValue) (cmp : Comparator TKey).
Implicit Types (key : TKey) (value : TValue).

(** ** The scan of [add] *)

Lemma scan_shift cmp key rest position :
  scan cmp key rest (S position) = S (scan cmp key rest position).
Proof.
  revert position.
  induction rest as [|k rest IH]; intros position; simpl.
  - reflexivity.
  - destruct (0 <? cmp key k); [apply IH | reflexivity].
Qed.

Lemma scan_bound cmp key rest :
  (scan cmp key rest 0 <= length rest)%nat.
Proof.
  induction rest as [|k rest IH]; simpl.
  - lia.
  - destruct (0 <? cmp key k).
    + rewrite scan_shift. lia.
    + lia.
Qed.

Lemma scan_passed cmp key rest i k :
  (i < scan cmp key rest 0)%nat ->
  nth_error rest i = Some k ->
  0 < cmp key k.
Proof.
  revert i.
  induction rest as [|k0 rest IH]; intros i Hi Hk; simpl in Hi.
  - lia.
  - destruct (0 <? cmp key k0) eqn:E.
    + rewrite scan_shift in Hi.
      destruct i as [|i]; simpl in Hk.
      * injection Hk as <-. now apply Z.ltb_lt.
      * apply (IH i); [lia | assumption].
    + lia.
Qed.

Lemma scan_stopped cmp key rest k :
  nth_error rest (scan cmp key rest 0) = Some k ->
  cmp key k <= 0.
Proof.
  induction rest as [|k0 rest IH]; simpl.
  - discriminate.
  - destruct (0 <? cmp key k0) eqn:E.
    + rewrite scan_shift. simpl. exact IH.
    + simpl. intros [= <-]. now apply Z.ltb_ge.
Qed.

(** ** [splice] as insertion and as deletion *)

Lemma splice_insert {A : Type} (p : nat) (x : A) (l : list A) :
  splice p 0 [x] l = firstn p l ++ x :: skipn p l.
Proof.
  unfold splice. now rewrite Nat.add_0_r.
Qed.

Lemma splice_delete {A : Type} (p : nat) (l : list A) :
  splice p 1 [] l = firstn p l ++ skipn (S p) l.
Proof.
  unfold splice. now rewrite Nat.add_1_r.
Qed.

Lemma length_splice_insert {A : Type} (p : nat) (x : A) (l : list A) :
  length (splice p 0 [x] l) = S (length l).
Proof.
  rewrite splice_insert, length_app. simpl.
  rewrite length_firstn, length_skipn. lia.
Qed.

Lemma length_splice_delete {A : Type} (p : nat) (l : list A) :
  length (splice p 1 [] l) = (length l - (if p <? length l then 1 else 0))%nat.
Proof.
  rewrite splice_delete, length_app, length_firstn, length_skipn.
  destruct (Nat.ltb_spec p (length l)); lia.
Qed.

(** ** What the guards decide *)

Lemma indexOfKey_defined this key :
  toBoolean key = true ->
  indexOfKey this key =
    Return (Math_max (-1)
              (Arrays.binarySearch (keys this) key (comparator this))).
Proof.
  intros Hk. unfold indexOfKey. now rewrite Hk.
Qed.

Lemma getValue_defined this key :
  toBoolean key = true ->
  getValue this key =
    let index :=
      Math_max (-1)
        (Arrays.binarySearch (keys this) key (comparator this)) in
    if 0 <=? index then Return (nth (Z.to_nat index) (values this) undefined)
    else Return null.
Proof.
  intros Hk. unfold getValue. rewrite Hk, (indexOfKey_defined _ _ Hk).
  reflexivity.
Qed.

Lemma add_defined this key value :
  toBoolean key = true -> toBoolean value = true ->
  add this key value =
    Return {| keys := splice (scan (comparator this) key (keys this) 0)
                        0 [key] (keys this);
              values := splice (scan (comparator this) key (keys this) 0)
                          0 [value] (values this);
              comparator := comparator this |}.
Proof.
  intros Hk Hv. unfold add. now rewrite Hk, Hv.
Qed.

Lemma add_returns this key value this' :
  add this key value = Return this' ->
  toBoolean key = true /\ toBoolean value = true.
Proof.
  unfold add.
  destruct (toBoolean key), (toBoolean value); simpl; intros E;
    try discriminate; auto.
Qed.

Lemma remove_defined this key :
  toBoolean key = true ->
  remove this key =
    let index :=
      Math_max (-1)
        (Arrays.binarySearch (keys this) key (comparator this)) in
    Return (0 <=? index,
            if 0 <=? index then
              {| keys := splice (Z.to_nat index) 1 [] (keys this);
                 values := splice (Z.to_nat index) 1 [] (values this);
                 comparator := comparator this |}
            else this).
Proof.
  intros Hk. unfold remove. rewrite Hk, (indexOfKey_defined _ _ Hk).
  reflexivity.
Qed.

Lemma step_cases this o : Stepped this (step this o).
Proof.
  destruct o as [key value | key]; simpl.
  - destruct (add this key value) as [this'|] eqn:E; [|constructor].
    destruct (add_returns _ _ _ _ E) as [Hk Hv].
    rewrite (add_defined _ _ _ Hk Hv) in E. injection E as <-.
    now constructor.
  - destruct (toBoolean key) eqn:Hk.
    + rewrite (remove_defined _ _ Hk). cbv zeta.
      destruct (0 <=? _); constructor.
    + unfold remove. rewrite Hk. simpl. constructor.
Qed.

(** An invariant of every step is an invariant of every run. *)
Lemma run_invariant (P : t TKey TValue -> Prop) :
  (forall this o, P this -> P (step this o)) ->
  forall ops this, P this -> P (run this ops).
Proof.
  intros Hstep ops.
  induction ops as [|o ops IH]; intros this HP; simpl.
  - exact HP.
  - apply IH, Hstep, HP.
Qed.

Lemma step_comparator this o : comparator (step this o) = comparator this.
Proof.
  destruct (step_cases this o); reflexivity.
Qed.

Lemma run_comparator this ops : comparator (run this ops) = comparator this.
Proof.
  revert this.
  induction ops as [|o ops IH]; intros this; simpl.
  - reflexivity.
  - now rewrite IH, step_comparator.
Qed.

(** ** The two arrays go together *)

Lemma step_lengths this o :
  length (keys this) = length (values this) ->
  length (keys (step this o)) = length (values (step this o)).
Proof.
  intros E.
  destruct (step_cases this o); simpl.
  - exact E.
  - now rewrite !length_splice_insert, E.
  - now rewrite !length_splice_delete, E.
Qed.

Lemma run_lengths this ops :
  length (keys this) = length (values this) ->
  length (keys (run this ops)) = length (values (run this ops)).
Proof.
  apply (run_invariant
           (fun l => length (keys l) = length (values l))).
  intros; now apply step_lengths.
Qed.

(** ** Only defined keys and values are stored *)

Lemma Forall_splice_insert {A : Type} (P : A -> Prop) p x l :
  P x -> Forall P l -> Forall P (splice p 0 [x] l).
Proof.
  intros Hx Hl. rewrite splice_insert.
  apply Forall_app; split.
  - now apply Forall_prefix.
  - constructor; [assumption | now apply Forall_suffix].
Qed.

Lemma Forall_splice_delete {A : Type} (P : A -> Prop) p l :
  Forall P l -> Forall P (splice p 1 [] l).
Proof.
  intros Hl. rewrite splice_delete.
  apply Forall_app; split.
  - now apply Forall_prefix.
  - now apply Forall_suffix.
Qed.

Lemma step_all_defined this o :
  all_defined this -> all_defined (step this o).
Proof.
  intros [Hk Hv].
  destruct (step_cases this o); split; simpl;
    auto using @Forall_splice_insert, @Forall_splice_delete.
Qed.

Lemma run_all_defined this ops :
  all_defined this -> all_defined (run this ops).
Proof.
  apply (run_invariant all_defined). intros; now apply step_all_defined.
Qed.

End SortedListFacts.

(** * Properties of the binary search *)

Section BinarySearchFacts.
Context {T : Type} `{JsType T}.
Variables (array : list T) (key : T) (comparator : T -> T -> Z).

Let len : Z := Z.of_nat (length array).
Let element (i : Z) : T := nth (Z.to_nat i) array undefined.
Let search := Arrays.search array key comparator.

Lemma mid_between low high :
  0 <= low -> low <= high ->
  low <= Z.quot (low + high) 2 <= high.
Proof.
  intros Hlow Hle.
  rewrite Z.quot_div_nonneg by lia.
  split.
  - apply Z.div_le_lower_bound; lia.
  - apply Z.div_le_upper_bound; lia.
Qed.

(** The fuel is not what stops the search: any two amounts that cover
    the window give the same result. *)
Lemma search_fuel f1 : forall f2 low high,
  0 <= low ->
  high - low + 1 <= Z.of_nat f1 ->
  high - low + 1 <= Z.of_nat f2 ->
  search f1 low high = search f2 low high.
Proof.
  unfold search.
  induction f1 as [|f1 IH]; intros f2 low high Hlow H1 H2.
  - destruct f2 as [|f2]; simpl; [reflexivity|].
    destruct (Z.leb_spec low high); [lia | reflexivity].
  - destruct f2 as [|f2]; simpl.
    + destruct (Z.leb_spec low high); [lia | reflexivity].
    + destruct (Z.leb_spec low high) as [Hle|]; [|reflexivity].
      pose proof (mid_between low high Hlow Hle) as Hmid.
      destruct (_ <? 0); [apply IH; lia|].
      destruct (0 <? _); [apply IH; lia | reflexivity].
Qed.

(** The search returns a negative number, or an index of its window at
    which the comparator gives [0]. *)
Lemma search_result fuel : forall low high,
  0 <= low ->
  search fuel low high < 0
  \/ (low <= search fuel low high <= high
      /\ comparator (element (search fuel low high)) key = 0).
Proof.
  unfold search, element.
  induction fuel as [|fuel IH]; intros low high Hlow; simpl.
  - left; lia.
  - destruct (Z.leb_spec low high) as [Hle|]; [|left; lia].
    pose proof (mid_between low high Hlow Hle) as Hmid.
    destruct (Z.ltb_spec
                (comparator (nth (Z.to_nat (Z.quot (low + high) 2))
                               array undefined) key) 0) as [Hneg|Hnonneg].
    + destruct (IH (Z.quot (low + high) 2 + 1) high) as [Hr|[Hr Hc]];
        [lia | now left | right; split; [lia | exact Hc]].
    + destruct (Z.ltb_spec 0
                  (comparator (nth (Z.to_nat (Z.quot (low + high) 2))
                                 array undefined) key)) as [Hpos|Hnonpos].
      * destruct (IH low (Z.quot (low + high) 2 - 1)) as [Hr|[Hr Hc]];
          [lia | now left | right; split; [lia | exact Hc]].
      * right; split; lia.
Qed.

(** A key that compares equal to no element is not found. *)
Lemma binarySearch_absent :
  (forall x, In x array -> comparator x key <> 0) ->
  Arrays.binarySearch array key comparator < 0.
Proof.
  intros Habsent. unfold Arrays.binarySearch.
  destruct (search_result (length array) 0 (Z.of_nat (length array) - 1))
    as [Hr|[Hr Hc]]; [lia | exact Hr |].
  exfalso. apply (Habsent _ (nth_In array undefined
    (n := Z.to_nat (search (length array) 0 (Z.of_nat (length array) - 1)))
    ltac:(lia))).
  exact Hc.
Qed.

(** On an array that is ordered around the index [at] as the search
    expects, the search ends on an index where the comparator gives
    [0]. *)
Lemma search_present (at_ : Z) :
  (forall i, 0 <= i < at_ -> comparator (element i) key <= 0) ->
  (forall i, at_ < i < len -> 0 <= comparator (element i) key) ->
  comparator (element at_) key = 0 ->
  forall fuel low high,
    0 <= low -> high < len ->
    low <= at_ <= high ->
    high - low + 1 <= Z.of_nat fuel ->
    low <= search fuel low high <= high
    /\ comparator (element (search fuel low high)) key = 0.
Proof.
  intros Hbefore Hafter Hat.
  unfold search.
  induction fuel as [|fuel IH]; intros low high Hlow Hhigh Hwin Hfuel.
  - lia.
  - simpl.
    destruct (Z.leb_spec low high) as [Hle|]; [|lia].
    pose proof (mid_between low high Hlow Hle) as Hmid.
    fold (element (Z.quot (low + high) 2)).
    destruct (Z.ltb_spec (comparator (element (Z.quot (low + high) 2)) key) 0)
      as [Hneg|Hnonneg].
    + assert (at_ > Z.quot (low + high) 2) as Hgt.
      { destruct (Z.lt_trichotomy at_ (Z.quot (low + high) 2))
          as [Hlt|[Heq|Hgt]]; [| |lia].
        - specialize (Hafter (Z.quot (low + high) 2)). lia.
        - rewrite <- Heq in Hneg. lia. }
      destruct (IH (Z.quot (low + high) 2 + 1) high) as [Hr Hc];
        [lia | lia | lia | lia |].
      split; [lia | exact Hc].
    + destruct (Z.ltb_spec 0 (comparator (element (Z.quot (low + high) 2)) key))
        as [Hpos|Hnonpos].
      * assert (at_ < Z.quot (low + high) 2) as Hlt.
        { destruct (Z.lt_trichotomy at_ (Z.quot (low + high) 2))
            as [Hlt|[Heq|Hgt]]; [lia | |].
          - rewrite <- Heq in Hpos. lia.
          - specialize (Hbefore (Z.quot (low + high) 2)). lia. }
        destruct (IH low (Z.quot (low + high) 2 - 1)) as [Hr Hc];
          [lia | lia | lia | lia |].
        split; [lia | exact Hc].
      * split; [lia | lia].
Qed.

Lemma binarySearch_present (at_ : Z) :
  0 <= at_ < len ->
  (forall i, 0 <= i < at_ -> comparator (element i) key <= 0) ->
  (forall i, at_ < i < len -> 0 <= comparator (element i) key) ->
  comparator (element at_) key = 0 ->
  0 <= Arrays.binarySearch array key comparator < len
  /\ comparator (element (Arrays.binarySearch array key comparator)) key = 0.
Proof.
  intros Hrange Hbefore Hafter Hat.
  unfold Arrays.binarySearch.
  destruct (search_present at_ Hbefore Hafter Hat (length array) 0
              (Z.of_nat (length array) - 1)) as [Hr Hc];
    try (unfold len in *; lia).
  split; [unfold len, search in *; lia | exact Hc].
Qed.

End BinarySearchFacts.

(** * Order of the keys *)

Section SortedListOrder.
Import SortedList.
Context {TKey TValue : Type} `{JsType TKey} `{JsType TValue}.

Implicit Types (this : t TKey TValue) (cmp : Comparator TKey).
Implicit Types (key : TKey) (value : TValue) (ks : list TKey).

Lemma Consistent_refl cmp key :
  Consistent cmp -> defined key -> cmp key key = 0.
Proof.
  intros Hc Hk.
  pose proof (cmp_swap cmp Hc key key Hk Hk) as E.
  destruct (cmp key key); simpl in E; [reflexivity | discriminate..].
Qed.

Lemma Consistent_greater cmp a b :
  Consistent cmp -> defined a -> defined b ->
  0 < cmp a b -> cmp b a <= 0.
Proof.
  intros Hc Ha Hb Hgt.
  pose proof (cmp_swap cmp Hc a b Ha Hb) as E.
  pose proof (Z.sgn_pos (cmp a b) Hgt) as E'.
  rewrite E' in E.
  destruct (cmp b a); simpl in E; [lia | discriminate | lia].
Qed.

Lemma Consistent_not_less cmp a b :
  Consistent cmp -> defined a -> defined b ->
  cmp a b <= 0 -> 0 <= cmp b a.
Proof.
  intros Hc Ha Hb Hle.
  pose proof (cmp_swap cmp Hc a b Ha Hb) as E.
  destruct (cmp a b), (cmp b a); simpl in E; try discriminate; lia.
Qed.

(** Inserting at the position of the scan keeps the keys sorted. *)
Lemma sorted_insert cmp key ks :
  Consistent cmp -> defined key ->
  Forall defined ks ->
  sorted cmp ks ->
  sorted cmp (splice (scan cmp key ks 0) 0 [key] ks).
Proof.
  intros Hc Hk Hdef Hs.
  induction Hs as [|k ks Hs IH Hall]; simpl.
  - repeat constructor.
  - inversion Hdef as [|? ? Hdk Hdks]; subst.
    destruct (Z.ltb_spec 0 (cmp key k)) as [Hgt|Hle].
    + rewrite scan_shift, splice_insert. simpl.
      rewrite <- splice_insert.
      constructor; [now apply IH|].
      apply Forall_splice_insert; [|exact Hall].
      now apply Consistent_greater.
    + rewrite splice_insert. simpl.
      constructor; [now constructor|].
      constructor; [exact Hle|].
      rewrite Forall_forall in Hall, Hdks |- *.
      intros x Hx.
      apply (cmp_trans cmp Hc key k x); auto.
Qed.

(** Deleting one entry keeps the keys sorted. *)
Lemma sorted_delete cmp (index : nat) ks :
  sorted cmp ks -> sorted cmp (splice index 1 [] ks).
Proof.
  intros Hs. revert index.
  induction Hs as [|k ks Hs IH Hall]; intros [|index].
  - constructor.
  - constructor.
  - exact Hs.
  - change (splice (S index) 1 [] (k :: ks))
      with (k :: splice index 1 [] ks).
    constructor; [apply IH | now apply Forall_splice_delete].
Qed.

Lemma step_sorted this o :
  Consistent (comparator this) ->
  all_defined this ->
  sorted (comparator this) (keys this) ->
  sorted (comparator (step this o)) (keys (step this o)).
Proof.
  intros Hc [Hdef _] Hs.
  destruct (step_cases this o); simpl.
  - exact Hs.
  - now apply sorted_insert.
  - now apply sorted_delete.
Qed.

Lemma run_sorted this ops :
  Consistent (comparator this) ->
  all_defined this ->
  sorted (comparator this) (keys this) ->
  sorted (comparator this) (keys (run this ops)).
Proof.
  intros Hc Hdef Hs.
  rewrite <- (run_comparator this ops).
  refine (proj2 (proj2 (run_invariant
           (fun l => Consistent (comparator l) /\ all_defined l
                     /\ sorted (comparator l) (keys l)) _ ops this _)));
    [|split; [exact Hc | split; [exact Hdef | exact Hs]]].
  intros l o (Hcl & Hdl & Hsl).
  split; [now rewrite step_comparator|].
  split; [now apply step_all_defined | now apply step_sorted].
Qed.

(** In sorted keys an earlier key is not greater than a later one. *)
Lemma sorted_nth cmp ks (i j : nat) a b :
  sorted cmp ks -> (i < j)%nat ->
  nth_error ks i = Some a -> nth_error ks j = Some b ->
  cmp a b <= 0.
Proof.
  intros Hs. revert i j.
  induction Hs as [|k ks Hs IH Hall]; intros i j Hij Ha Hb.
  - destruct i; discriminate.
  - destruct j as [|j]; [lia|].
    destruct i as [|i]; simpl in Ha, Hb.
    + injection Ha as <-.
      rewrite Forall_forall in Hall.
      apply Hall. eapply nth_error_In, Hb.
    + apply (IH i j); [lia | assumption..].
Qed.

(** On sorted keys a key that is present is found, at an index where
    the comparator gives [0]. *)
Lemma binarySearch_sorted cmp ks key :
  Consistent cmp -> Forall defined ks -> defined key ->
  sorted cmp ks -> In key ks ->
  let index := Arrays.binarySearch ks key cmp in
  0 <= index < Z.of_nat (length ks)
  /\ cmp (nth (Z.to_nat index) ks undefined) key = 0.
Proof.
  intros Hc Hdef Hk Hs Hin.
  destruct (In_nth_error _ _ Hin) as [n Hn].
  assert (n < length ks)%nat as Hlt
    by (apply nth_error_Some; now rewrite Hn).
  assert (forall i : Z, 0 <= i < Z.of_nat (length ks) ->
            exists x, nth_error ks (Z.to_nat i) = Some x
                      /\ nth (Z.to_nat i) ks undefined = x /\ defined x)
    as Helt.
  { intros i Hi.
    destruct (nth_error_in_range ks (Z.to_nat i)) as [x Hx]; [lia|].
    exists x. repeat split; [exact Hx | now apply nth_nth_error |].
    rewrite Forall_forall in Hdef. eapply Hdef, nth_error_In, Hx. }
  apply (binarySearch_present ks key cmp (Z.of_nat n)).
  - lia.
  - intros i Hi.
    destruct (Helt i) as (x & Hx & -> & Hdx); [lia|].
    apply (sorted_nth cmp ks (Z.to_nat i) n); auto. lia.
  - intros i Hi.
    destruct (Helt i) as (x & Hx & -> & Hdx); [lia|].
    apply Consistent_not_less; auto.
    apply (sorted_nth cmp ks n (Z.to_nat i)); auto. lia.
  - rewrite Nat2Z.id, (nth_nth_error undefined ks n key Hn).
    now apply Consistent_refl.
Qed.

End SortedListOrder.

(** * The default comparator on numbers *)

Section NumberKeys.
Import SortedList.

Lemma defined_number (x : Js Z) :
  defined x -> exists n, x = js n /\ n <> 0.
Proof.
  destruct x as [| |n]; try discriminate.
  intros Hx. exists n. split; [reflexivity|].
  unfold defined in Hx. simpl in Hx.
  destruct (Z.eqb_spec n 0); [discriminate | assumption].
Qed.

Lemma DEFAULT_COMPARATOR_number (a b : Z) :
  DEFAULT_COMPARATOR (js a) (js b)
  = if a <? b then -1 else if b <? a then 1 else 0.
Proof. reflexivity. Qed.

Lemma DEFAULT_COMPARATOR_consistent :
  Consistent (TKey := Js Z) DEFAULT_COMPARATOR.
Proof.
  split.
  - intros a b Ha Hb.
    destruct (defined_number a Ha) as (x & -> & _).
    destruct (defined_number b Hb) as (y & -> & _).
    rewrite !DEFAULT_COMPARATOR_number.
    destruct (Z.ltb_spec x y), (Z.ltb_spec y x); simpl; lia.
  - intros a b c Ha Hb Hc.
    destruct (defined_number a Ha) as (x & -> & _).
    destruct (defined_number b Hb) as (y & -> & _).
    destruct (defined_number c Hc) as (z & -> & _).
    rewrite !DEFAULT_COMPARATOR_number.
    destruct (Z.ltb_spec x y), (Z.ltb_spec y x), (Z.ltb_spec y z),
      (Z.ltb_spec z y), (Z.ltb_spec x z), (Z.ltb_spec z x); lia.
Qed.

Lemma DEFAULT_COMPARATOR_separating :
  Separating (TKey := Js Z) DEFAULT_COMPARATOR.
Proof.
  intros a b Ha Hb.
  destruct (defined_number a Ha) as (x & -> & _).
  destruct (defined_number b Hb) as (y & -> & _).
  rewrite DEFAULT_COMPARATOR_number.
  destruct (Z.ltb_spec x y), (Z.ltb_spec y x); try discriminate.
  intros _. f_equal. lia.
Qed.

End NumberKeys.

(** * The claims about the sorted list *)

Section SortedListClaims.
Import SortedList.
Context {TKey TValue : Type} `{JsType TKey} `{JsType TValue}
        `{JsRelational TKey}.

Implicit Types (this : t TKey TValue) (c : option (Comparator TKey)).
Implicit Types (key : TKey) (value : TValue).
Implicit Types (ops : list (Operation TKey TValue)).

Lemma constructor_all_defined c : all_defined (constructor c : t TKey TValue).
Proof. split; constructor. Qed.

Lemma constructor_sorted c cmp :
  sorted cmp (keys (constructor c : t TKey TValue)).
Proof. constructor. Qed.

Lemma keys_sorted_invariant c ops :
  Consistent (comparator (run (constructor c) ops : t TKey TValue)) ->
  sorted (comparator (run (constructor c) ops : t TKey TValue))
    (keys (run (constructor c) ops)).
Proof.
  rewrite run_comparator. intros Hc.
  apply run_sorted;
    [exact Hc | apply constructor_all_defined | apply constructor_sorted].
Qed.

(** C1, as amended: when the comparator of the list (the supplied one,
    or the default one) is consistent on defined keys, that is when
    swapping its arguments flips the sign of its result and "not
    greater" is transitive, the keys of a list built by any sequence of
    [add] and [remove] are sorted non-decreasingly with respect to it,
    and one more operation keeps them sorted. *)
Theorem keys_sorted_for_consistent_comparator :
  forall c ops (o : Operation TKey TValue),
    let this := run (constructor c) ops in
    Consistent (comparator this) ->
    sorted (comparator this) (keys this)
    /\ sorted (comparator this) (keys (step this o)).
Proof.
  intros c ops o this Hc.
  pose proof (keys_sorted_invariant c ops Hc) as Hs.
  split; [exact Hs|].
  rewrite <- (step_comparator this o).
  apply step_sorted; [exact Hc | | exact Hs].
  apply run_all_defined, constructor_all_defined.
Qed.

(** C8: in every list reached from the constructor by [add] and
    [remove], [keys] and [values] have the same length, and [count] is
    that length. *)
Theorem keys_values_same_length :
  forall c ops,
    let this := run (constructor c) ops in
    length (keys this) = length (values this)
    /\ count this = length (keys this)
    /\ count this = length (values this).
Proof.
  intros c ops this.
  assert (length (keys this) = length (values this)) as E
    by (apply run_lengths; reflexivity).
  unfold count. now rewrite <- E.
Qed.

(** C5: a successful [add] inserts the key and the value at the least
    index [p] at which the comparator, applied to the new key and the
    key stored there, is not positive, and at the end when there is no
    such index; an existing key that compares equal to the new one ends
    up after it; [count] grows by one. *)
Theorem add_inserts_at_first_not_greater :
  forall this key value this',
    add this key value = Return this' ->
    exists p : nat,
      (p <= length (keys this))%nat
      /\ (forall i k, (i < p)%nat -> nth_error (keys this) i = Some k ->
                      0 < comparator this key k)
      /\ (forall k, nth_error (keys this) p = Some k ->
                    comparator this key k <= 0)
      /\ keys this' = firstn p (keys this) ++ key :: skipn p (keys this)
      /\ values this'
         = firstn p (values this) ++ value :: skipn p (values this)
      /\ (forall i k, nth_error (keys this) i = Some k ->
                      comparator this key k = 0 ->
                      (p <= i)%nat
                      /\ nth_error (keys this') p = Some key
                      /\ nth_error (keys this') (S i) = Some k)
      /\ count this' = S (count this).
Proof.
  intros this key value this' Hadd.
  destruct (add_returns _ _ _ _ Hadd) as [Hk Hv].
  rewrite (add_defined _ _ _ Hk Hv) in Hadd. injection Hadd as <-.
  set (p := scan (comparator this) key (keys this) 0).
  pose proof (scan_bound (comparator this) key (keys this)) as Hp.
  fold p in Hp.
  assert (forall i k, (i < p)%nat -> nth_error (keys this) i = Some k ->
                      0 < comparator this key k) as Hbefore.
  { intros i k Hi Hnth. exact (scan_passed _ _ _ i k Hi Hnth). }
  assert (forall i k, nth_error (keys this) i = Some k ->
                      comparator this key k = 0 -> (p <= i)%nat) as Hequal.
  { intros i k Hnth Hzero.
    destruct (Nat.le_gt_cases p i) as [Hle|Hgt]; [exact Hle|].
    specialize (Hbefore i k Hgt Hnth). lia. }
  assert (forall (A : Type) (x : A) (l : list A), (p <= length l)%nat ->
            nth_error (firstn p l ++ x :: skipn p l) p = Some x) as Hnew.
  { intros A x l Hl.
    rewrite nth_error_app2; rewrite length_firstn, Nat.min_l by lia;
      [|lia].
    now rewrite Nat.sub_diag. }
  assert (forall (A : Type) (x : A) (l : list A) i, (p <= i)%nat ->
            (p <= length l)%nat ->
            nth_error (firstn p l ++ x :: skipn p l) (S i) = nth_error l i)
    as Hold.
  { intros A x l i Hi Hl.
    rewrite nth_error_app2; rewrite length_firstn, Nat.min_l by lia;
      [|lia].
    replace (S i - p)%nat with (S (i - p)) by lia. simpl.
    rewrite nth_error_skipn. now replace (p + (i - p))%nat with i by lia. }
  exists p. cbn [keys values]. rewrite !splice_insert.
  split; [exact Hp|].
  split; [exact Hbefore|].
  split; [intros k; apply scan_stopped|].
  split; [reflexivity|].
  split; [reflexivity|].
  split.
  - intros i k Hnth Hzero.
    pose proof (Hequal i k Hnth Hzero) as Hle.
    split; [exact Hle|].
    split; [now apply Hnew|].
    rewrite Hold by assumption. exact Hnth.
  - unfold count. cbn [keys]. rewrite <- splice_insert.
    apply length_splice_insert.
Qed.

End SortedListClaims.

(** * What can throw *)

Section PartialFacts.
Context {TKey TValue : Type} `{JsType TKey} `{JsType TValue}.

Implicit Types (this : Partial.t TKey TValue) (cmp : Partial.Comparator TKey).
Implicit Types (key : TKey) (value : TValue) (array : list TKey).

Lemma bind_throws {A B : Type} (c : Result A) (k : A -> Result B) :
  throws (bind c k) ->
  throws c \/ exists a, c = Return a /\ throws (k a).
Proof.
  destruct c as [a|message]; simpl.
  - intros Hk. right. now exists a.
  - intros _. left. now exists message.
Qed.

Lemma Return_not_throws {A : Type} (a : A) : ~ throws (Return a).
Proof. intros [message E]. discriminate E. Qed.

Lemma middle_between (low high : Z) :
  0 <= low -> low <= high -> low <= Z.quot (low + high) 2 <= high.
Proof.
  intros Hlow Hle. rewrite Z.quot_div_nonneg by lia.
  split; [apply Z.div_le_lower_bound | apply Z.div_le_upper_bound]; lia.
Qed.

(** A search that throws has called the comparator on an element of the
    array, and that call threw. *)
Lemma search_throws array key cmp (fuel : nat) :
  forall low high : Z,
    0 <= low -> high < Z.of_nat (length array) ->
    throws (Partial.search array key cmp fuel low high) ->
    exists k, In k array /\ throws (cmp k key).
Proof.
  induction fuel as [|fuel IH]; intros low high Hlow Hhigh Hthrows;
    cbn [Partial.search] in Hthrows.
  - now apply Return_not_throws in Hthrows.
  - destruct (Z.leb_spec low high) as [Hle|];
      [|now apply Return_not_throws in Hthrows].
    pose proof (middle_between low high Hlow Hle) as Hmid.
    apply bind_throws in Hthrows.
    destruct Hthrows as [Hcall|(comp & _ & Hrest)].
    + eexists. split; [|exact Hcall]. apply nth_In. lia.
    + destruct (comp <? 0);
        [apply (IH (Z.quot (low + high) 2 + 1) high);
         [lia | lia | exact Hrest]|].
      destruct (0 <? comp);
        [apply (IH low (Z.quot (low + high) 2 - 1));
         [lia | lia | exact Hrest]|].
      now apply Return_not_throws in Hrest.
Qed.

Lemma scan_throws cmp key (rest : list TKey) :
  forall position : nat,
    throws (Partial.scan cmp key rest position) ->
    exists k, In k rest /\ throws (cmp key k).
Proof.
  induction rest as [|k rest IH]; intros position Hthrows;
    cbn [Partial.scan] in Hthrows.
  - now apply Return_not_throws in Hthrows.
  - apply bind_throws in Hthrows.
    destruct Hthrows as [Hcall|(comp & _ & Hrest)].
    + exists k. split; [now left | exact Hcall].
    + destruct (0 <? comp); [|now apply Return_not_throws in Hrest].
      destruct (IH _ Hrest) as (k' & Hin & Hk').
      exists k'. split; [now right | exact Hk'].
Qed.

Lemma indexOfKey_throws this key :
  toBoolean key = true ->
  throws (Partial.indexOfKey this key) ->
  exists k, In k (Partial.keys this) /\ throws (Partial.comparator this k key).
Proof.
  intros Hk Hthrows. unfold Partial.indexOfKey in Hthrows.
  rewrite Hk in Hthrows. cbn [negb] in Hthrows.
  apply bind_throws in Hthrows.
  destruct Hthrows as [Hsearch|(found & _ & Hrest)];
    [|now apply Return_not_throws in Hrest].
  apply (search_throws (Partial.keys this) key (Partial.comparator this)
           (length (Partial.keys this)) 0
           (Z.of_nat (length (Partial.keys this)) - 1));
    [lia | lia | exact Hsearch].
Qed.

(** C4, as amended: [getValue], [indexOfKey] and [remove] throw when the
    key is falsy ([null], [undefined], [0], the empty string, [false])
    and [add] throws when the key or the value is falsy. With truthy
    arguments a method throws only when a call of the comparator on the
    key and a stored key throws, as [<] in the default comparator does
    on a Symbol. So with a comparator that always returns, each method
    throws exactly when an argument is falsy. *)
Theorem throws_on_falsy_arguments_or_in_the_comparator :
  forall this key value,
    (toBoolean key = false ->
     Partial.getValue this key = Throw "Key must be defined."
     /\ Partial.indexOfKey this key = Throw "Key must be defined."
     /\ Partial.remove this key = Throw "Key must be defined.")
    /\ (toBoolean key = false \/ toBoolean value = false ->
        Partial.add this key value = Throw "Key and value must be defined.")
    /\ (toBoolean key = true ->
        throws (Partial.getValue this key)
        \/ throws (Partial.indexOfKey this key)
        \/ throws (Partial.remove this key) ->
        exists k, In k (Partial.keys this)
                  /\ throws (Partial.comparator this k key))
    /\ (toBoolean key = true -> toBoolean value = true ->
        throws (Partial.add this key value) ->
        exists k, In k (Partial.keys this)
                  /\ throws (Partial.comparator this key k))
    /\ ((forall a b, ~ throws (Partial.comparator this a b)) ->
        (throws (Partial.getValue this key) <-> toBoolean key = false)
        /\ (throws (Partial.indexOfKey this key) <-> toBoolean key = false)
        /\ (throws (Partial.remove this key) <-> toBoolean key = false)
        /\ (throws (Partial.add this key value)
            <-> toBoolean key = false \/ toBoolean value = false)).
Proof.
  intros this key value.
  assert (toBoolean key = false ->
          Partial.getValue this key = Throw "Key must be defined."
          /\ Partial.indexOfKey this key = Throw "Key must be defined."
          /\ Partial.remove this key = Throw "Key must be defined.")
    as Hguard.
  { intros Hk. unfold Partial.getValue, Partial.indexOfKey, Partial.remove.
    rewrite Hk. repeat split. }
  assert (toBoolean key = false \/ toBoolean value = false ->
          Partial.add this key value
          = Throw "Key and value must be defined.") as Hguard_add.
  { intros [Hk|Hv]; unfold Partial.add.
    - now rewrite Hk.
    - rewrite Hv. now rewrite orb_true_r. }
  assert (toBoolean key = true ->
          throws (Partial.getValue this key)
          \/ throws (Partial.indexOfKey this key)
          \/ throws (Partial.remove this key) ->
          exists k, In k (Partial.keys this)
                    /\ throws (Partial.comparator this k key)) as Hlookup.
  { intros Hk [Hthrows|[Hthrows|Hthrows]].
    - unfold Partial.getValue in Hthrows. rewrite Hk in Hthrows.
      cbn [negb] in Hthrows. apply bind_throws in Hthrows.
      destruct Hthrows as [Hidx|(index & _ & Hrest)];
        [now apply indexOfKey_throws|].
      destruct (0 <=? index); now apply Return_not_throws in Hrest.
    - now apply indexOfKey_throws.
    - unfold Partial.remove in Hthrows. rewrite Hk in Hthrows.
      cbn [negb] in Hthrows. apply bind_throws in Hthrows.
      destruct Hthrows as [Hidx|(index & _ & Hrest)];
        [now apply indexOfKey_throws|].
      now apply Return_not_throws in Hrest. }
  assert (toBoolean key = true -> toBoolean value = true ->
          throws (Partial.add this key value) ->
          exists k, In k (Partial.keys this)
                    /\ throws (Partial.comparator this key k)) as Hadd.
  { intros Hk Hv Hthrows. unfold Partial.add in Hthrows.
    rewrite Hk, Hv in Hthrows. cbn [negb orb] in Hthrows.
    apply bind_throws in Hthrows.
    destruct Hthrows as [Hscan|(position & _ & Hrest)];
      [|now apply Return_not_throws in Hrest].
    exact (scan_throws _ _ _ _ Hscan). }
  split; [exact Hguard|]. split; [exact Hguard_add|].
  split; [exact Hlookup|]. split; [exact Hadd|].
  intros Htotal.
  assert (forall c : Prop, (exists k : TKey, In k (Partial.keys this) /\ c)
                           -> c) as Hex
    by (intros c (_ & _ & Hc); exact Hc).
  destruct (toBoolean key) eqn:Hk.
  - repeat split; try discriminate; try (intros [E|E]; try discriminate E).
    + intros Hthrows. exfalso.
      destruct (Hlookup eq_refl (or_introl Hthrows)) as (k & _ & Hcall).
      exact (Htotal _ _ Hcall).
    + intros Hthrows. exfalso.
      destruct (Hlookup eq_refl (or_intror (or_introl Hthrows)))
        as (k & _ & Hcall).
      exact (Htotal _ _ Hcall).
    + intros Hthrows. exfalso.
      destruct (Hlookup eq_refl (or_intror (or_intror Hthrows)))
        as (k & _ & Hcall).
      exact (Htotal _ _ Hcall).
    + intros Hthrows.
      destruct (toBoolean value) eqn:Hv; [|now right].
      exfalso. destruct (Hadd eq_refl eq_refl Hthrows) as (k & _ & Hcall).
      exact (Htotal _ _ Hcall).
    + rewrite (Hguard_add (or_intror E)). now eexists.
  - destruct (Hguard eq_refl) as (Eg & Ei & Er).
    rewrite Eg, Ei, Er, (Hguard_add (or_introl eq_refl)).
    repeat split; intros; try reflexivity; try (now eexists); now left.
Qed.

End PartialFacts.

(** With a comparator that always returns, [Partial] is [SortedList]. *)
Section PartialLift.
Context {TKey TValue : Type} `{JsType TKey} `{JsType TValue}.

Implicit Types (this : SortedList.t TKey TValue) (key : TKey).

Lemma Partial_search_lift (array : list TKey) key
  (cmp : SortedList.Comparator TKey) (fuel : nat) :
  forall low high : Z,
    Partial.search array key (fun a b => Return (cmp a b)) fuel low high
    = Return (Arrays.search array key cmp fuel low high).
Proof.
  induction fuel as [|fuel IH]; intros low high; simpl; [reflexivity|].
  destruct (low <=? high); [|reflexivity].
  destruct (_ <? 0); [apply IH|].
  destruct (0 <? _); [apply IH | reflexivity].
Qed.

Lemma Partial_indexOfKey_lift this key :
  Partial.indexOfKey (Partial.lift this) key = SortedList.indexOfKey this key.
Proof.
  unfold Partial.indexOfKey, SortedList.indexOfKey, Partial.binarySearch,
    Arrays.binarySearch.
  destruct (toBoolean key); [|reflexivity]. cbn [negb Partial.lift
    Partial.keys Partial.comparator].
  now rewrite Partial_search_lift.
Qed.

Lemma Partial_getValue_lift this key :
  Partial.getValue (Partial.lift this) key = SortedList.getValue this key.
Proof.
  unfold Partial.getValue, SortedList.getValue.
  now rewrite Partial_indexOfKey_lift.
Qed.

Lemma Partial_scan_lift (cmp : SortedList.Comparator TKey) key
  (rest : list TKey) :
  forall position : nat,
    Partial.scan (fun a b => Return (cmp a b)) key rest position
    = Return (SortedList.scan cmp key rest position).
Proof.
  induction rest as [|k rest IH]; intros position; simpl; [reflexivity|].
  destruct (0 <? cmp key k); [apply IH | reflexivity].
Qed.

Lemma Partial_add_lift this key (value : TValue) :
  Partial.add (Partial.lift this) key value
  = (this' <- SortedList.add this key value ;; Return (Partial.lift this')).
Proof.
  unfold Partial.add, SortedList.add.
  destruct (negb (toBoolean key) || negb (toBoolean value)); [reflexivity|].
  cbn [Partial.lift Partial.keys Partial.values Partial.comparator].
  now rewrite Partial_scan_lift.
Qed.

Lemma Partial_remove_lift this key :
  Partial.remove (Partial.lift this) key
  = (result <- SortedList.remove this key ;;
     Return (fst result, Partial.lift (snd result))).
Proof.
  unfold Partial.remove, SortedList.remove.
  destruct (negb (toBoolean key)); [reflexivity|].
  rewrite Partial_indexOfKey_lift.
  destruct (SortedList.indexOfKey this key) as [index|]; [|reflexivity].
  cbn [bind fst snd]. now destruct (0 <=? index).
Qed.

End PartialLift.

(** Symbols as keys, with the default comparator: the first [add] calls
    no comparator and returns; the second compares the two Symbols and
    the [TypeError] of [<] leaves [add]. *)
Example add_throws_on_symbols :
  let a := js (Partial.a_symbol 1) in
  let b := js (Partial.a_symbol 2) in
  let one := js (Partial.a_number 1) in
  let two := js (Partial.a_number 2) in
  toBoolean a = true /\ toBoolean b = true
  /\ toBoolean one = true /\ toBoolean two = true
  /\ Partial.add (Partial.constructor None) a one
     = Return {| Partial.keys := [a]; Partial.values := [one];
                 Partial.comparator := Partial.DEFAULT_COMPARATOR |}
  /\ Partial.add {| Partial.keys := [a]; Partial.values := [one];
                    Partial.comparator := Partial.DEFAULT_COMPARATOR |} b two
     = Throw "TypeError".
Proof. repeat split. Qed.


(** * Lookup *)

Section SortedListLookup.
Import SortedList.
Context {TKey TValue : Type} `{JsType TKey} `{JsType TValue}
        `{JsRelational TKey}.

Implicit Types (this : t TKey TValue) (c : option (Comparator TKey)).
Implicit Types (key : TKey) (value : TValue).
Implicit Types (ops : list (Operation TKey TValue)).

(** A defined key that compares equal to no stored key is not found. *)
Lemma lookup_absent this key :
  Separating (comparator this) ->
  all_defined this ->
  defined key -> ~ In key (keys this) ->
  indexOfKey this key = Return (-1) /\ getValue this key = Return null.
Proof.
  intros Hsep [Hdef _] Hk Hnotin.
  assert (Arrays.binarySearch (keys this) key (comparator this) < 0) as Hneg.
  { apply binarySearch_absent. intros x Hx Hzero.
    apply Hnotin.
    rewrite Forall_forall in Hdef.
    rewrite <- (Hsep x key (Hdef x Hx) Hk Hzero). exact Hx. }
  rewrite (indexOfKey_defined _ _ Hk), (getValue_defined _ _ Hk). cbv zeta.
  unfold Math_max. rewrite Z.max_l by lia. split; reflexivity.
Qed.

(** A defined key that is stored is found at one of its indices, and
    the value at that index is returned. *)
Lemma lookup_present this key :
  Consistent (comparator this) -> Separating (comparator this) ->
  all_defined this ->
  length (keys this) = length (values this) ->
  sorted (comparator this) (keys this) ->
  defined key -> In key (keys this) ->
  exists (index : nat) value,
    nth_error (keys this) index = Some key
    /\ nth_error (values this) index = Some value
    /\ toBoolean value = true
    /\ indexOfKey this key = Return (Z.of_nat index)
    /\ getValue this key = Return value.
Proof.
  intros Hc Hsep [Hdk Hdv] Hlen Hs Hk Hin.
  destruct (binarySearch_sorted (comparator this) (keys this) key
              Hc Hdk Hk Hs Hin) as [Hrange Hzero].
  set (index := Arrays.binarySearch (keys this) key (comparator this)) in *.
  destruct (nth_error_in_range (keys this) (Z.to_nat index)) as [k Hnk];
    [lia|].
  destruct (nth_error_in_range (values this) (Z.to_nat index)) as [v Hnv];
    [lia|].
  rewrite (nth_nth_error undefined _ _ _ Hnk) in Hzero.
  rewrite Forall_forall in Hdk, Hdv.
  assert (k = key) as ->
    by (apply Hsep; [eapply Hdk, nth_error_In, Hnk | exact Hk | exact Hzero]).
  exists (Z.to_nat index), v.
  split; [exact Hnk|].
  split; [exact Hnv|].
  split; [eapply Hdv, nth_error_In, Hnv|].
  rewrite (indexOfKey_defined _ _ Hk), (getValue_defined _ _ Hk). cbv zeta.
  fold index. unfold Math_max. rewrite Z.max_r by lia.
  split; [now rewrite Z2Nat.id by lia|].
  destruct (Z.leb_spec 0 index); [|lia].
  now rewrite (nth_nth_error undefined _ _ _ Hnv).
Qed.

Lemma run_constructor_invariants c ops :
  let this := run (constructor c) ops in
  all_defined this /\ length (keys this) = length (values this).
Proof.
  split.
  - apply run_all_defined, constructor_all_defined.
  - apply run_lengths. reflexivity.
Qed.

(** C2, as amended: when the comparator is consistent and only
    identical keys compare equal under it, [getValue] on a defined key
    that is in the list returns the value stored at an index at which
    that key is stored. *)
Theorem getValue_returns_value_of_present_key :
  forall c ops key,
    let this := run (constructor c) ops in
    Consistent (comparator this) -> Separating (comparator this) ->
    defined key -> In key (keys this) ->
    exists (index : nat) value,
      nth_error (keys this) index = Some key
      /\ nth_error (values this) index = Some value
      /\ getValue this key = Return value.
Proof.
  intros c ops key this Hc Hsep Hk Hin.
  destruct (run_constructor_invariants c ops) as [Hdef Hlen].
  pose proof (keys_sorted_invariant c ops Hc) as Hs.
  destruct (lookup_present this key Hc Hsep Hdef Hlen Hs Hk Hin)
    as (index & value & Hnk & Hnv & _ & _ & Hget).
  now exists index, value.
Qed.


(** C9, as amended: [add] throws whenever the value is falsy, so every
    stored value is truthy; and when the comparator is consistent and
    only identical keys compare equal under it, [getValue] on a defined
    key returns [null] exactly when the key is not in the list. *)
Theorem null_means_absent :
  forall c ops key value,
    let this := run (constructor c) ops in
    (toBoolean value = false -> throws (add this key value))
    /\ Forall (fun v => toBoolean v = true) (values this)
    /\ (Consistent (comparator this) -> Separating (comparator this) ->
        defined key ->
        (getValue this key = Return null <-> ~ In key (keys this))).
Proof.
  intros c ops key value this.
  destruct (run_constructor_invariants c ops) as [Hdef Hlen].
  split.
  { intros Hv. unfold add. rewrite Hv, orb_true_r. now eexists. }
  split; [apply Hdef|].
  intros Hc Hsep Hk. split.
  - intros Hget Hin.
    pose proof (keys_sorted_invariant c ops Hc) as Hs.
    destruct (lookup_present this key Hc Hsep Hdef Hlen Hs Hk Hin)
      as (index & v & _ & _ & Htrue & _ & Hget').
    fold this in Hget'. rewrite Hget in Hget'. injection Hget' as <-.
    rewrite toBoolean_null in Htrue. discriminate.
  - intros Hnotin. now apply lookup_absent.
Qed.

End SortedListLookup.


(** * The sorted list on number keys: instances of the claims *)

Section NumberLists.
Import SortedList.

Example sampleList_entries :
  keys sampleList = [js 3; js 3; js 7]
  /\ values sampleList = [js 31; js 30; js 70].
Proof. split; reflexivity. Qed.

(** With the default comparator on numbers the keys are sorted after
    every sequence of operations. *)
Lemma keys_sorted_with_default_comparator :
  forall ops : list (Operation (Js Z) (Js Z)),
    sorted DEFAULT_COMPARATOR (keys (run (constructor None) ops)).
Proof.
  intros ops.
  pose proof (keys_sorted_invariant (TKey := Js Z) (TValue := Js Z) None ops)
    as Hs.
  rewrite run_comparator in Hs.
  apply Hs. exact DEFAULT_COMPARATOR_consistent.
Qed.

(** C1, an instance: the keys of [sampleList] are sorted and stay sorted
    when [4] is added. *)
Lemma keys_sorted_witness :
  sorted (comparator sampleList) (keys sampleList)
  /\ sorted (comparator sampleList)
       (keys (step sampleList (Add (js 4) (js 40)))).
Proof.
  apply (keys_sorted_for_consistent_comparator
           (TKey := Js Z) (TValue := Js Z) None sampleOps (Add (js 4) (js 40))).
  exact DEFAULT_COMPARATOR_consistent.
Defined.

(** C1, refuted as stated: [withinOne] is not transitive. Adding [1],
    [2] and [3] gives the keys [3, 2, 1], in which [3] comes before [1]
    and compares greater; removing [2] then leaves [3, 1], where this
    pair is adjacent. *)
Lemma keys_unsorted_with_inconsistent_comparator :
  let added : t (Js Z) (Js Z) :=
    run (constructor (Some withinOne))
      [Add (js 1) (js 10); Add (js 2) (js 20); Add (js 3) (js 30)] in
  let this := step added (Remove (js 2)) in
  keys added = [js 3; js 2; js 1]
  /\ ~ sorted (comparator added) (keys added)
  /\ keys this = [js 3; js 1]
  /\ comparator this (js 3) (js 1) = 2
  /\ ~ sorted_adjacent (comparator this) (keys this)
  /\ ~ sorted (comparator this) (keys this).
Proof.
  cbv zeta.
  assert (~ sorted_adjacent withinOne [js 3; js 1]) as Hno.
  { intros Hs. inversion Hs as [|a l _ Hhd]; subst.
    inversion Hhd as [|b l' Hle]; subst.
    vm_compute in Hle. now apply Hle. }
  split; [reflexivity|].
  split.
  { intros Hs. apply StronglySorted_inv in Hs. destruct Hs as [_ Hall].
    inversion Hall as [|a l _ Hrest]; subst.
    inversion Hrest as [|b l' Hle _]; subst.
    vm_compute in Hle. now apply Hle. }
  split; [reflexivity|].
  split; [reflexivity|].
  split; [exact Hno|].
  intros Hs. apply Hno, StronglySorted_Sorted, Hs.
Qed.

(** C2, an instance: [7] is found in [sampleList]. *)
Lemma getValue_present_witness :
  exists (index : nat) (value : Js Z),
    nth_error (keys sampleList) index = Some (js 7)
    /\ nth_error (values sampleList) index = Some value
    /\ getValue sampleList (js 7) = Return value.
Proof.
  apply (getValue_returns_value_of_present_key
           (TKey := Js Z) (TValue := Js Z) None sampleOps (js 7)).
  - exact DEFAULT_COMPARATOR_consistent.
  - exact DEFAULT_COMPARATOR_separating.
  - reflexivity.
  - right; right; left; reflexivity.
Defined.

(** C2, refuted as stated: under [byMagnitude] the keys [-1] and [1]
    compare equal. After adding [1] with value [10], [-1] with value [20]
    and [1] with value [30], the key [1] is stored at the indices [0] and
    [2], with the values [30] and [10], and [getValue(1)] returns [20],
    the value stored with [-1]. *)
Lemma getValue_returns_value_of_other_key :
  let this : t (Js Z) (Js Z) :=
    run (constructor (Some byMagnitude))
      [Add (js 1) (js 10); Add (js (-1)) (js 20); Add (js 1) (js 30)] in
  keys this = [js 1; js (-1); js 1]
  /\ values this = [js 30; js 20; js 10]
  /\ defined (js 1 : Js Z)
  /\ In (js 1) (keys this)
  /\ getValue this (js 1) = Return (js 20)
  /\ (forall index : nat,
        nth_error (keys this) index = Some (js 1) ->
        nth_error (values this) index <> Some (js 20)).
Proof.
  cbv zeta.
  repeat (split; [reflexivity|]).
  split; [left; reflexivity|].
  split; [reflexivity|].
  intros [|[|[|[|index]]]]; simpl; congruence.
Qed.



(** C4, refuted as stated: the key [0] is neither [null] nor
    [undefined] and [getValue], [indexOfKey] and [remove] throw on it;
    [add] throws on the key [1] when the value is [null]. *)
Lemma throws_on_keys_that_are_not_null :
  let this : t (Js Z) (Js Z) := constructor None in
  (js 0 <> (null : Js Z) /\ js 0 <> (undefined : Js Z))
  /\ getValue this (js 0) = Throw "Key must be defined."
  /\ indexOfKey this (js 0) = Throw "Key must be defined."
  /\ remove this (js 0) = Throw "Key must be defined."
  /\ (js 1 <> (null : Js Z) /\ js 1 <> (undefined : Js Z))
  /\ add this (js 1) null = Throw "Key and value must be defined.".
Proof.
  cbv zeta.
  split; [split; discriminate|].
  repeat (split; [reflexivity|]).
  split; [split; discriminate | reflexivity].
Qed.

(** C5, an instance: adding [3] to [sampleList], which holds [3] twice,
    puts the new entry first. *)
Lemma add_position_witness :
  exists p : nat,
    (p <= length (keys sampleList))%nat
    /\ (forall i k, (i < p)%nat -> nth_error (keys sampleList) i = Some k ->
                    0 < comparator sampleList (js 3) k)
    /\ (forall k, nth_error (keys sampleList) p = Some k ->
                  comparator sampleList (js 3) k <= 0)
    /\ keys (step sampleList (Add (js 3) (js 32)))
       = firstn p (keys sampleList) ++ js 3 :: skipn p (keys sampleList)
    /\ values (step sampleList (Add (js 3) (js 32)))
       = firstn p (values sampleList) ++ js 32 :: skipn p (values sampleList)
    /\ (forall i k, nth_error (keys sampleList) i = Some k ->
                    comparator sampleList (js 3) k = 0 ->
                    (p <= i)%nat
                    /\ nth_error (keys (step sampleList (Add (js 3) (js 32)))) p
                       = Some (js 3)
                    /\ nth_error (keys (step sampleList (Add (js 3) (js 32))))
                         (S i) = Some k)
    /\ count (step sampleList (Add (js 3) (js 32))) = S (count sampleList).
Proof.
  apply (add_inserts_at_first_not_greater
           (TKey := Js Z) (TValue := Js Z) sampleList (js 3) (js 32)).
  reflexivity.
Defined.

Example add_equal_key_goes_first :
  keys (step sampleList (Add (js 3) (js 32))) = [js 3; js 3; js 3; js 7]
  /\ values (step sampleList (Add (js 3) (js 32)))
     = [js 32; js 31; js 30; js 70].
Proof. split; reflexivity. Qed.

(** C9, an instance: in [sampleList], [getValue(4)] is [null] exactly
    because [4] is not stored. *)
Lemma null_means_absent_witness :
  getValue sampleList (js 4) = Return null <-> ~ In (js 4) (keys sampleList).
Proof.
  apply (proj2 (proj2 (null_means_absent
           (TKey := Js Z) (TValue := Js Z) None sampleOps (js 4) (js 40)))).
  - exact DEFAULT_COMPARATOR_consistent.
  - exact DEFAULT_COMPARATOR_separating.
  - reflexivity.
Defined.

(** C9, refuted as stated: under [withinOne], in the list that holds
    only the key [1], the key [2] is not stored and [getValue(2)] is not
    [null]. *)
Lemma absent_key_has_a_value :
  let this : t (Js Z) (Js Z) :=
    run (constructor (Some withinOne)) [Add (js 1) (js 10)] in
  keys this = [js 1]
  /\ defined (js 2 : Js Z)
  /\ ~ In (js 2) (keys this)
  /\ getValue this (js 2) = Return (js 10)
  /\ js 10 <> (null : Js Z).
Proof.
  cbv zeta.
  split; [reflexivity|].
  split; [reflexivity|].
  split; [intros [E|[]]; discriminate E|].
  split; [reflexivity | discriminate].
Qed.

End NumberLists.


(** * count and countToArray *)

Section CountFacts.
Context {State : Type}.
Implicit Types (callback : NumberCallback State) (state : State).






End CountFacts.







Example countToArray_up : countToArray 10 2 (Some 5) = Some [2; 3; 4].
Proof. reflexivity. Qed.

Example countToArray_down : countToArray 10 2 (Some (-1)) = Some [2; 1; 0].
Proof. reflexivity. Qed.

Example countToArray_one_argument : countToArray 10 3 None = Some [0; 1; 2].
Proof. reflexivity. Qed.

Example countToArray_empty : countToArray 1 4 (Some 4) = Some [].
Proof. reflexivity. Qed.

(** Rounding above [2 ^ 53]: the nearest double, the even one of two. *)
Example roundToDouble_ties :
  roundToDouble (2 ^ 53 + 1) = 2 ^ 53
  /\ roundToDouble (2 ^ 53 + 3) = 2 ^ 53 + 4
  /\ roundToDouble (2 ^ 54 + 1) = 2 ^ 54
  /\ roundToDouble (2 ^ 54 + 3) = 2 ^ 54 + 4
  /\ roundToDouble (- (2 ^ 53) - 1) = - (2 ^ 53).
Proof. repeat split; reflexivity. Qed.


(** * Provider registries *)

Section RegistryFacts.
Import LanguageFeatures.
Context {Selector Model Request Item : Type}.
Variable matches : Selector -> Model -> bool.

Implicit Types (registry : list (@Entry Selector Request Item)).
Implicit Types (providers : list (@Provider Request Item)).
Implicit Types (model : Model) (request : Request).

Lemma collect_app providers1 providers2 request :
  collect (providers1 ++ providers2) request
  = collect providers1 request ++ collect providers2 request.
Proof.
  induction providers1 as [|p providers1 IH]; simpl.
  - reflexivity.
  - destruct (p request); [now rewrite IH, app_assoc | exact IH].
Qed.

Lemma all_app registry1 registry2 model :
  all matches (registry1 ++ registry2) model
  = all matches registry2 model ++ all matches registry1 model.
Proof.
  unfold all. now rewrite rev_app_distr, filter_app, map_app.
Qed.

Lemma ask_app registry1 registry2 model request :
  ask matches (registry1 ++ registry2) model request
  = ask matches registry2 model request ++ ask matches registry1 model request.
Proof.
  unfold ask. now rewrite all_app, collect_app.
Qed.

Lemma ask_register registry s (p : Provider) model request :
  ask matches (register registry s p) model request
  = (if matches s model then collect [p] request else [])
      ++ ask matches registry model request.
Proof.
  unfold register. rewrite ask_app. f_equal.
  unfold ask, all. simpl. now destruct (matches s model).
Qed.

Lemma collect_successes providers request :
  collect providers request = merge (successes providers request).
Proof.
  induction providers as [|p providers IH]; simpl.
  - reflexivity.
  - destruct (p request); [now rewrite IH | exact IH].
Qed.

Lemma collect_includes providers (p : Provider) request items :
  In p providers -> p request = Return items ->
  incl items (collect providers request).
Proof.
  intros Hin Hp.
  induction providers as [|q providers IH]; [contradiction|].
  destruct Hin as [->|Hin]; simpl.
  - rewrite Hp. now apply incl_appl, incl_refl.
  - destruct (q request); [apply incl_appr|]; now apply IH.
Qed.

(** C6: the answer to a request is the merge of the results of the
    providers that do not throw; registering a provider that throws
    leaves every answer as it was; and the results of every provider that
    returns are part of the answer. *)
Theorem failing_provider_is_left_out :
  forall registry model request,
    ask matches registry model request
    = merge (successes (all matches registry model) request)
    /\ (forall s (evil : Provider),
          fails evil request ->
          ask matches (register registry s evil) model request
          = ask matches registry model request)
    /\ (forall (p : Provider) items,
          In p (all matches registry model) ->
          p request = Return items ->
          incl items (ask matches registry model request)).
Proof.
  intros registry model request.
  split; [apply collect_successes|].
  split.
  - intros s evil [message Hevil].
    rewrite ask_register. simpl. rewrite Hevil.
    now destruct (matches s model).
  - intros p items Hin Hp. now apply (collect_includes _ p).
Qed.

(** C7: when two providers registered for the same selector both answer
    a request, the results of the one registered later come before the
    results of the one registered earlier, whatever was registered
    before, between and after them. *)
Theorem later_registration_comes_first :
  forall (older between newer : list (@Entry Selector Request Item))
         (s : Selector) (first second : Provider) model request
         (items1 items2 : list Item),
    matches s model = true ->
    first request = Return items1 ->
    second request = Return items2 ->
    ask matches
      (register (register older s first ++ between) s second ++ newer)
      model request
    = ask matches newer model request
        ++ items2
        ++ ask matches between model request
        ++ items1
        ++ ask matches older model request.
Proof.
  intros older between newer s first second model request items1 items2
    Hs Hfirst Hsecond.
  rewrite ask_app, ask_register, ask_app, ask_register, Hs.
  simpl. rewrite Hfirst, Hsecond, !app_nil_r.
  repeat rewrite <- app_assoc. reflexivity.
Qed.

End RegistryFacts.

(** The tests "Definition, registration order" and "Definition, evil
    provider": one selector, and locations named by their authority. *)
Section RegistryTests.
Import LanguageFeatures.

Example registration_order :
  ask anyModel (register (register [] tt firstProvider) tt secondProvider)
    tt tt
  = ["second"%string; "first"%string].
Proof. reflexivity. Qed.

Example evil_provider :
  ask anyModel (register (register [] tt evilProvider) tt secondProvider)
    tt tt
  = ["second"%string].
Proof. reflexivity. Qed.

(** C7, an instance: the test "Definition, registration order". *)
Lemma later_registration_witness :
  ask anyModel
    (register (register [] tt firstProvider ++ []) tt secondProvider ++ [])
    tt tt
  = ask anyModel [] tt tt
      ++ ["second"%string]
      ++ ask anyModel [] tt tt
      ++ ["first"%string]
      ++ ask anyModel [] tt tt.
Proof.
  apply (later_registration_comes_first anyModel [] [] [] tt
           firstProvider secondProvider tt tt);
    reflexivity.
Defined.

End RegistryTests.


(** * More on the sorted list: entries, lookup and removal *)

Section ListPairs.
Context {A B : Type}.
Implicit Types (ks : list A) (vs : list B).

Lemma combine_insert (p : nat) (k : A) (v : B) ks vs :
  length ks = length vs ->
  combine (splice p 0 [k] ks) (splice p 0 [v] vs)
  = splice p 0 [(k, v)] (combine ks vs).
Proof.
  rewrite !splice_insert. revert ks vs.
  induction p as [|p IH]; intros ks vs Hlen.
  - reflexivity.
  - destruct ks as [|k0 ks], vs as [|v0 vs]; try discriminate Hlen.
    + reflexivity.
    + simpl. f_equal. apply IH. now injection Hlen.
Qed.

Lemma combine_delete (p : nat) ks vs :
  combine (splice p 1 [] ks) (splice p 1 [] vs)
  = splice p 1 [] (combine ks vs).
Proof.
  revert ks vs.
  induction p as [|p IH]; intros ks vs;
    destruct ks as [|k0 ks], vs as [|v0 vs]; try reflexivity.
  - cbn. now destruct ks.
  - change (splice (S p) 1 [] (k0 :: ks)) with (k0 :: splice p 1 [] ks).
    change (splice (S p) 1 [] (v0 :: vs)) with (v0 :: splice p 1 [] vs).
    change (splice (S p) 1 [] (combine (k0 :: ks) (v0 :: vs)))
      with ((k0, v0) :: splice p 1 [] (combine ks vs)).
    simpl. f_equal. apply IH.
Qed.

Lemma In_splice_insert {C : Type} (p : nat) (x y : C) (l : list C) :
  In y (splice p 0 [x] l) <-> y = x \/ In y l.
Proof.
  rewrite splice_insert, in_app_iff. simpl.
  rewrite <- (firstn_skipn p l) at 3. rewrite in_app_iff.
  intuition congruence.
Qed.

Lemma In_splice_delete {C : Type} (p : nat) (y : C) (l : list C) :
  In y (splice p 1 [] l) -> In y l.
Proof.
  rewrite splice_delete, in_app_iff.
  intros [Hin|Hin].
  - rewrite <- (firstn_skipn p l). apply in_or_app. now left.
  - rewrite <- (firstn_skipn (S p) l). apply in_or_app. now right.
Qed.


End ListPairs.

Section SortedListEntries.
Import SortedList.
Context {TKey TValue : Type} `{JsType TKey} `{JsType TValue}
        `{JsRelational TKey}.

Implicit Types (this : t TKey TValue) (c : option (Comparator TKey)).
Implicit Types (ops : list (Operation TKey TValue)).

Lemma run_snoc this ops (o : Operation TKey TValue) :
  run this (ops ++ [o]) = step (run this ops) o.
Proof. unfold run. now rewrite fold_left_app. Qed.

Lemma step_add this (k : TKey) (v : TValue) :
  step this (Add k v)
  = if toBoolean k && toBoolean v then
      {| keys := splice (scan (comparator this) k (keys this) 0)
                   0 [k] (keys this);
         values := splice (scan (comparator this) k (keys this) 0)
                     0 [v] (values this);
         comparator := comparator this |}
    else this.
Proof.
  unfold step, add.
  destruct (toBoolean k), (toBoolean v); reflexivity.
Qed.

Lemma step_remove this (k : TKey) :
  step this (Remove k)
  = if toBoolean k
       && (0 <=? Arrays.binarySearch (keys this) k (comparator this)) then
      {| keys := splice (Z.to_nat (Arrays.binarySearch (keys this) k
                                     (comparator this)))
                   1 [] (keys this);
         values := splice (Z.to_nat (Arrays.binarySearch (keys this) k
                                       (comparator this)))
                     1 [] (values this);
         comparator := comparator this |}
    else this.
Proof.
  unfold step. destruct (toBoolean k) eqn:Hk.
  - rewrite (remove_defined _ _ Hk). cbv zeta. unfold Math_max. simpl.
    destruct (Z.leb_spec 0
                (Arrays.binarySearch (keys this) k (comparator this)))
      as [Hle|Hlt].
    + rewrite Z.max_r by lia.
      destruct (Z.leb_spec 0
                  (Arrays.binarySearch (keys this) k (comparator this)));
        [reflexivity | lia].
    + rewrite Z.max_l by lia. reflexivity.
  - unfold remove. rewrite Hk. reflexivity.
Qed.

Lemma entries_step_add this (k : TKey) (v : TValue) :
  length (keys this) = length (values this) ->
  entries (step this (Add k v))
  = if toBoolean k && toBoolean v then
      splice (scan (comparator this) k (keys this) 0) 0 [(k, v)] (entries this)
    else entries this.
Proof.
  intros Hlen. rewrite step_add.
  destruct (toBoolean k && toBoolean v); [|reflexivity].
  unfold entries. cbn [keys values]. now apply combine_insert.
Qed.

Lemma entries_step_remove this (k : TKey) :
  entries (step this (Remove k)) = entries this
  \/ exists index : nat,
       entries (step this (Remove k)) = splice index 1 [] (entries this).
Proof.
  rewrite step_remove.
  destruct (toBoolean k && _); [|now left].
  right. eexists. unfold entries. cbn [keys values]. apply combine_delete.
Qed.


(** X1: in a list built by [add] and [remove], [getKey] and
    [getValueByIndex] return [null] exactly for an index that is out of
    bounds; for an index within [0 .. count - 1] they return the key and
    the value stored there, and both are truthy. *)
Theorem index_access_within_bounds :
  forall c ops (index : Z),
    let this := run (constructor c) ops in
    (0 <= index < Z.of_nat (count this) ->
     nth_error (keys this) (Z.to_nat index) = Some (getKey this index)
     /\ nth_error (values this) (Z.to_nat index)
        = Some (getValueByIndex this index)
     /\ toBoolean (getKey this index) = true
     /\ toBoolean (getValueByIndex this index) = true)
    /\ (getKey this index = null <-> ~ 0 <= index < Z.of_nat (count this))
    /\ (getValueByIndex this index = null
        <-> ~ 0 <= index < Z.of_nat (count this)).
Proof.
  intros c ops index this.
  destruct (run_constructor_invariants c ops) as [[Hdk Hdv] Hlen].
  fold this in Hdk, Hdv, Hlen.
  assert (0 <= index < Z.of_nat (count this) ->
          nth_error (keys this) (Z.to_nat index) = Some (getKey this index)
          /\ nth_error (values this) (Z.to_nat index)
             = Some (getValueByIndex this index)
          /\ toBoolean (getKey this index) = true
          /\ toBoolean (getValueByIndex this index) = true) as Hin.
  { intros Hrange. unfold count in Hrange.
    unfold getKey, getValueByIndex. rewrite <- Hlen.
    destruct (Z.leb_spec 0 index); [|lia].
    destruct (Z.ltb_spec index (Z.of_nat (length (keys this)))); [|lia].
    cbn [andb].
    destruct (nth_error_in_range (keys this) (Z.to_nat index)) as [k Hk];
      [lia|].
    destruct (nth_error_in_range (values this) (Z.to_nat index)) as [v Hv];
      [lia|].
    rewrite (nth_nth_error undefined _ _ _ Hk),
      (nth_nth_error undefined _ _ _ Hv).
    rewrite Forall_forall in Hdk, Hdv.
    split; [exact Hk|]. split; [exact Hv|].
    split; [eapply Hdk, nth_error_In, Hk | eapply Hdv, nth_error_In, Hv]. }
  assert (~ 0 <= index < Z.of_nat (count this) ->
          getKey this index = null /\ getValueByIndex this index = null)
    as Hout.
  { intros Hrange. unfold count in Hrange.
    unfold getKey, getValueByIndex. rewrite <- Hlen.
    destruct (Z.leb_spec 0 index);
      destruct (Z.ltb_spec index (Z.of_nat (length (keys this))));
      cbn [andb]; try (split; reflexivity).
    lia. }
  split; [exact Hin|].
  split; split.
  - intros Hnull Hrange.
    destruct (Hin Hrange) as (_ & _ & Htrue & _).
    rewrite Hnull, toBoolean_null in Htrue. discriminate.
  - intros Hrange. apply (Hout Hrange).
  - intros Hnull Hrange.
    destruct (Hin Hrange) as (_ & _ & _ & Htrue).
    rewrite Hnull, toBoolean_null in Htrue. discriminate.
  - intros Hrange. apply (Hout Hrange).
Qed.

(** X2: every entry of a list built by [add] and [remove] was put there
    by an [add] of that key with that value, and both are truthy: the
    list never pairs a key with a value of another call. *)
Theorem stored_entries_were_added :
  forall c ops (k : TKey) (v : TValue),
    In (k, v) (entries (run (constructor c) ops)) ->
    In (Add k v) ops /\ toBoolean k = true /\ toBoolean v = true.
Proof.
  intros c ops k v Hin.
  split.
  - revert Hin.
    induction ops as [|o ops IH] using rev_ind; [intros []|].
    rewrite run_snoc, in_app_iff. intros Hin.
    destruct o as [k' v'|k'].
    + rewrite entries_step_add in Hin by (apply run_lengths; reflexivity).
      destruct (toBoolean k' && toBoolean v'); [|left; now apply IH].
      apply In_splice_insert in Hin. destruct Hin as [[= -> ->]|Hin].
      * right. now left.
      * left. now apply IH.
    + left. apply IH.
      destruct (entries_step_remove (run (constructor c) ops) k')
        as [E|[index E]]; rewrite E in Hin; [exact Hin|].
      exact (In_splice_delete _ _ _ Hin).
  - destruct (run_constructor_invariants c ops) as [[Hdk Hdv] _].
    rewrite Forall_forall in Hdk, Hdv.
    split; [apply Hdk | apply Hdv].
    + exact (in_combine_l _ _ _ _ Hin).
    + exact (in_combine_r _ _ _ _ Hin).
Qed.


End SortedListEntries.

Section SortedListSearch.
Import SortedList.
Context {TKey TValue : Type} `{JsType TKey} `{JsType TValue}
        `{JsRelational TKey}.

Implicit Types (this : t TKey TValue) (c : option (Comparator TKey)).
Implicit Types (cmp : Comparator TKey) (ks : list TKey).
Implicit Types (ops : list (Operation TKey TValue)).

(** On sorted keys the search finds an index as soon as some stored key
    compares equal to the key that is looked up. *)
Lemma binarySearch_equivalent cmp ks (k x : TKey) :
  Consistent cmp -> Forall defined ks -> defined k ->
  sorted cmp ks -> In x ks -> cmp x k = 0 ->
  0 <= Arrays.binarySearch ks k cmp < Z.of_nat (length ks)
  /\ cmp (nth (Z.to_nat (Arrays.binarySearch ks k cmp)) ks undefined) k = 0.
Proof.
  intros Hc Hdef Hk Hs Hin Hzero.
  destruct (In_nth_error _ _ Hin) as [n Hn].
  assert (n < length ks)%nat as Hlt
    by (apply nth_error_Some; now rewrite Hn).
  assert (defined x) as Hx
    by (rewrite Forall_forall in Hdef; now apply Hdef).
  assert (cmp k x = 0) as Hzero'.
  { pose proof (cmp_swap cmp Hc x k Hx Hk) as E.
    rewrite Hzero in E. simpl in E.
    destruct (cmp k x); [reflexivity | discriminate..]. }
  assert (forall i : Z, 0 <= i < Z.of_nat (length ks) ->
            exists y, nth_error ks (Z.to_nat i) = Some y
                      /\ nth (Z.to_nat i) ks undefined = y /\ defined y)
    as Helt.
  { intros i Hi.
    destruct (nth_error_in_range ks (Z.to_nat i)) as [y Hy]; [lia|].
    exists y. repeat split; [exact Hy | now apply nth_nth_error |].
    rewrite Forall_forall in Hdef. eapply Hdef, nth_error_In, Hy. }
  apply (binarySearch_present ks k cmp (Z.of_nat n)).
  - lia.
  - intros i Hi.
    destruct (Helt i) as (y & Hy & -> & Hdy); [lia|].
    apply (cmp_trans cmp Hc y x k); auto; [|lia].
    apply (sorted_nth cmp ks (Z.to_nat i) n); auto. lia.
  - intros i Hi.
    destruct (Helt i) as (y & Hy & -> & Hdy); [lia|].
    apply Consistent_not_less; auto.
    apply (cmp_trans cmp Hc k x y); auto; [lia|].
    apply (sorted_nth cmp ks n (Z.to_nat i)); auto. lia.
  - rewrite Nat2Z.id, (nth_nth_error undefined ks n x Hn). exact Hzero.
Qed.

(** What a non-negative result of the search is, on any array. *)
Lemma binarySearch_found cmp ks (k : TKey) :
  0 <= Arrays.binarySearch ks k cmp ->
  exists (index : nat) (x : TKey),
    Arrays.binarySearch ks k cmp = Z.of_nat index
    /\ nth_error ks index = Some x /\ cmp x k = 0.
Proof.
  intros Hfound. unfold Arrays.binarySearch in *.
  destruct (search_result ks k cmp (length ks) 0 (Z.of_nat (length ks) - 1))
    as [Hneg|[Hrange Hzero]]; [lia | lia |].
  set (r := Arrays.search ks k cmp (length ks) 0 (Z.of_nat (length ks) - 1))
    in *.
  destruct (nth_error_in_range ks (Z.to_nat r)) as [x Hx]; [lia|].
  exists (Z.to_nat r), x.
  rewrite (nth_nth_error undefined _ _ _ Hx) in Hzero.
  repeat split; [lia | exact Hx | exact Hzero].
Qed.

Lemma binarySearch_negative cmp ks (k : TKey) :
  Arrays.binarySearch ks k cmp < 0 ->
  Math_max (-1) (Arrays.binarySearch ks k cmp) = -1.
Proof. intros Hneg. unfold Math_max. lia. Qed.

(** X4: under a consistent comparator, looking up a truthy key in a
    list built by [add] and [remove] succeeds exactly when some stored
    key compares equal to it. Then [indexOfKey] is an index that holds
    such a key and [getValue] is the value at that index; otherwise
    [indexOfKey] is [-1] and [getValue] is [null]. *)
Theorem lookup_finds_a_key_that_compares_equal :
  forall c ops (k : TKey),
    let this := run (constructor c) ops in
    Consistent (comparator this) -> defined k ->
    ((exists x, In x (keys this) /\ comparator this x k = 0) ->
     exists (index : nat) (x : TKey) (v : TValue),
       indexOfKey this k = Return (Z.of_nat index)
       /\ nth_error (keys this) index = Some x
       /\ comparator this x k = 0
       /\ nth_error (values this) index = Some v
       /\ getValue this k = Return v /\ v <> null)
    /\ ((forall x, In x (keys this) -> comparator this x k <> 0) ->
        indexOfKey this k = Return (-1) /\ getValue this k = Return null).
Proof.
  intros c ops k this Hc Hk.
  destruct (run_constructor_invariants c ops) as [[Hdk Hdv] Hlen].
  fold this in Hdk, Hdv, Hlen.
  pose proof (keys_sorted_invariant c ops Hc) as Hs. fold this in Hs.
  rewrite (indexOfKey_defined _ _ Hk), (getValue_defined _ _ Hk). cbv zeta.
  split.
  - intros (x & Hin & Hzero).
    destruct (binarySearch_equivalent _ _ k x Hc Hdk Hk Hs Hin Hzero)
      as [Hrange _].
    destruct (binarySearch_found (comparator this) (keys this) k)
      as (index & y & E & Hy & Hyk); [lia|].
    rewrite E in *. unfold Math_max. rewrite Z.max_r by lia.
    destruct (nth_error_in_range (values this) index) as [v Hv]; [lia|].
    exists index, y, v.
    destruct (Z.leb_spec 0 (Z.of_nat index)); [|lia].
    rewrite Nat2Z.id, (nth_nth_error undefined _ _ _ Hv).
    repeat split; try assumption.
    intros ->. rewrite Forall_forall in Hdv.
    pose proof (Hdv _ (nth_error_In _ _ Hv)) as Htrue.
    cbv beta in Htrue. rewrite toBoolean_null in Htrue. discriminate.
  - intros Hnone.
    rewrite binarySearch_negative; [split; reflexivity|].
    now apply binarySearch_absent.
Qed.

End SortedListSearch.

Section ListSplit.
Context {A : Type}.
Implicit Types (l : list A).

Lemma split_at_index l (i : nat) (x : A) :
  nth_error l i = Some x -> l = firstn i l ++ x :: skipn (S i) l.
Proof.
  revert i.
  induction l as [|y l IH]; intros [|i] Hx; try discriminate Hx.
  - injection Hx as ->. reflexivity.
  - simpl. f_equal. now apply IH.
Qed.

Lemma NoDup_delete_at l (i : nat) (x : A) :
  NoDup l -> nth_error l i = Some x -> ~ In x (splice i 1 [] l).
Proof.
  intros Hnd Hx. rewrite splice_delete.
  rewrite (split_at_index l i x Hx) in Hnd.
  exact (NoDup_remove_2 _ _ _ Hnd).
Qed.

Lemma delete_inserted (p : nat) (x : A) l :
  (p <= length l)%nat -> splice p 1 [] (splice p 0 [x] l) = l.
Proof.
  intros Hp. rewrite splice_insert, splice_delete.
  rewrite firstn_app, skipn_app, length_firstn, Nat.min_l by lia.
  rewrite firstn_firstn, Nat.min_id.
  replace (p - p)%nat with 0%nat by lia.
  replace (S p - p)%nat with 1%nat by lia.
  rewrite (skipn_all2 (n := S p)) by (rewrite length_firstn; lia).
  simpl. rewrite app_nil_r. apply firstn_skipn.
Qed.

Lemma In_combine_at {B : Type} (ks : list A) (vs : list B) (i : nat)
  (k : A) (v : B) :
  nth_error ks i = Some k -> nth_error vs i = Some v ->
  In (k, v) (combine ks vs).
Proof.
  revert vs i.
  induction ks as [|k0 ks IH]; intros [|v0 vs] [|i] Hk Hv;
    try discriminate.
  - injection Hk as ->. injection Hv as ->. now left.
  - right. now apply (IH vs i).
Qed.

Lemma nth_error_combine {B : Type} (ks : list A) (vs : list B) (i : nat)
  (k : A) (v : B) :
  nth_error (combine ks vs) i = Some (k, v) ->
  nth_error ks i = Some k /\ nth_error vs i = Some v.
Proof.
  revert vs i.
  induction ks as [|k0 ks IH]; intros [|v0 vs] [|i] Hkv;
    try discriminate Hkv; simpl in Hkv |- *.
  - injection Hkv as -> ->. now split.
  - now apply IH.
Qed.

Lemma inserted_index (p i : nat) (x : A) l :
  (p <= length l)%nat -> ~ In x l ->
  nth_error (splice p 0 [x] l) i = Some x -> i = p.
Proof.
  intros Hp Hnotin Hx. rewrite splice_insert in Hx.
  destruct (Nat.lt_trichotomy i p) as [Hlt|[Heq|Hgt]]; [|exact Heq|].
  - exfalso. apply Hnotin.
    rewrite nth_error_app1 in Hx by (rewrite length_firstn; lia).
    rewrite <- (firstn_skipn p l). apply in_or_app. left.
    exact (nth_error_In _ _ Hx).
  - exfalso. apply Hnotin.
    rewrite nth_error_app2 in Hx by (rewrite length_firstn; lia).
    rewrite length_firstn, Nat.min_l in Hx by lia.
    destruct (i - p)%nat as [|d] eqn:E; [lia|]. simpl in Hx.
    rewrite <- (firstn_skipn p l). apply in_or_app. right.
    exact (nth_error_In _ _ Hx).
Qed.

End ListSplit.

Section SortedListRoundTrips.
Import SortedList.
Context {TKey TValue : Type} `{JsType TKey} `{JsType TValue}
        `{JsRelational TKey}.

Implicit Types (this : t TKey TValue) (c : option (Comparator TKey)).
Implicit Types (ops : list (Operation TKey TValue)).

Lemma run_step_invariants c ops (o : Operation TKey TValue) :
  let this := step (run (constructor c) ops) o in
  all_defined this /\ length (keys this) = length (values this).
Proof.
  cbv zeta. rewrite <- run_snoc. apply run_constructor_invariants.
Qed.

Lemma run_step_sorted c ops (o : Operation TKey TValue) :
  Consistent (comparator (run (constructor c) ops : t TKey TValue)) ->
  sorted (comparator (run (constructor c) ops : t TKey TValue))
    (keys (step (run (constructor c) ops) o)).
Proof.
  intros Hc.
  rewrite <- (step_comparator (run (constructor c) ops) o), <- run_snoc.
  apply keys_sorted_invariant.
  now rewrite run_snoc, step_comparator.
Qed.

(** X5: insert and look up. Under a consistent comparator that gives 0
    only for identical keys, adding a truthy value under a truthy key
    that the list does not hold yet succeeds, and [getValue] on that key
    then returns that value. *)
Theorem getValue_after_add :
  forall c ops (k : TKey) (v : TValue),
    let this := run (constructor c) ops in
    Consistent (comparator this) -> Separating (comparator this) ->
    toBoolean k = true -> toBoolean v = true ->
    ~ In k (keys this) ->
    exists this',
      add this k v = Return this' /\ getValue this' k = Return v.
Proof.
  intros c ops k v this Hc Hsep Hk Hv Hfresh.
  exists (step this (Add k v)).
  split; [unfold step; now rewrite (add_defined _ _ _ Hk Hv)|].
  destruct (run_step_invariants c ops (Add k v)) as [Hdef Hlen].
  destruct (run_constructor_invariants c ops) as [_ Hlen0].
  fold this in Hdef, Hlen, Hlen0.
  pose proof (run_step_sorted c ops (Add k v) Hc) as Hs. fold this in Hs.
  assert (In k (keys (step this (Add k v)))) as Hin.
  { rewrite step_add, Hk, Hv. cbn [andb keys].
    apply In_splice_insert. now left. }
  destruct (lookup_present (step this (Add k v)) k) as
    (index & value & Hnk & Hnv & _ & _ & Hget);
    try rewrite step_comparator; try assumption.
  rewrite Hget. f_equal.
  pose proof (In_combine_at _ _ _ _ _ Hnk Hnv) as Hentry.
  fold (entries (step this (Add k v))) in Hentry.
  rewrite entries_step_add, Hk, Hv in Hentry by exact Hlen0.
  cbn [andb] in Hentry. apply In_splice_insert in Hentry.
  destruct Hentry as [[= ->]|Hold]; [reflexivity|].
  exfalso. apply Hfresh. exact (in_combine_l _ _ _ _ Hold).
Qed.

(** X6: what [remove] does to a list built by [add] and [remove]. It
    returns [true] exactly when it deletes one entry: the key and the
    value at one index, whose key compares equal to the argument, and
    [count] goes down by one. When it returns [false] the list is as it
    was. Under a consistent comparator it returns [true] exactly when
    some stored key compares equal to the argument. *)
Theorem remove_deletes_one_entry :
  forall c ops (k : TKey),
    let this := run (constructor c) ops in
    toBoolean k = true ->
    exists (found : bool) this',
      remove this k = Return (found, this')
      /\ (found = true ->
          exists (index : nat) (x : TKey) (v : TValue),
            nth_error (keys this) index = Some x
            /\ nth_error (values this) index = Some v
            /\ comparator this x k = 0
            /\ entries this'
               = firstn index (entries this) ++ skipn (S index) (entries this)
            /\ S (count this') = count this)
      /\ (found = false -> this' = this)
      /\ (Consistent (comparator this) ->
          (found = true
           <-> exists x, In x (keys this) /\ comparator this x k = 0)).
Proof.
  intros c ops k this Hk.
  destruct (run_constructor_invariants c ops) as [[Hdk Hdv] Hlen].
  fold this in Hdk, Hdv, Hlen.
  rewrite (remove_defined _ _ Hk). cbv zeta.
  destruct (Z.leb_spec 0
              (Arrays.binarySearch (keys this) k (comparator this)))
    as [Hfound|Hnone].
  - destruct (binarySearch_found (comparator this) (keys this) k Hfound)
      as (index & x & E & Hx & Hzero).
    unfold Math_max. rewrite Z.max_r by lia. rewrite E.
    destruct (Z.leb_spec 0 (Z.of_nat index)); [|lia].
    rewrite Nat2Z.id.
    assert (index < length (keys this))%nat as Hlt
      by (apply nth_error_Some; now rewrite Hx).
    destruct (nth_error_in_range (values this) index) as [v Hv]; [lia|].
    eexists _, _. split; [reflexivity|].
    split.
    + intros _. exists index, x, v.
      repeat split; try assumption.
      * unfold entries. cbn [keys values].
        rewrite combine_delete. apply splice_delete.
      * unfold count. cbn [keys]. rewrite length_splice_delete.
        destruct (Nat.ltb_spec index (length (keys this))); lia.
    + split; [discriminate|].
      intros _. split; [|reflexivity].
      intros _. exists x. split; [exact (nth_error_In _ _ Hx) | exact Hzero].
  - rewrite binarySearch_negative by exact Hnone.
    eexists _, _. split; [reflexivity|].
    split; [discriminate|].
    split; [reflexivity|].
    intros Hc. split; [discriminate|].
    intros (x & Hin & Hzero). exfalso.
    pose proof (keys_sorted_invariant c ops Hc) as Hs. fold this in Hs.
    destruct (binarySearch_equivalent _ _ k x Hc Hdk Hk Hs Hin Hzero)
      as [Hrange _].
    lia.
Qed.

(** X7: remove and look up. Under a consistent comparator that gives 0
    only for identical keys, in a list that holds a truthy key once,
    [remove] on that key returns [true], and afterwards the key is not
    stored, [getValue] is [null] and [indexOfKey] is [-1]. *)
Theorem lookup_after_remove :
  forall c ops (k : TKey),
    let this := run (constructor c) ops in
    Consistent (comparator this) -> Separating (comparator this) ->
    toBoolean k = true -> NoDup (keys this) -> In k (keys this) ->
    exists this',
      remove this k = Return (true, this')
      /\ ~ In k (keys this')
      /\ getValue this' k = Return null
      /\ indexOfKey this' k = Return (-1)
      /\ S (count this') = count this.
Proof.
  intros c ops k this Hc Hsep Hk Hnd Hin.
  destruct (run_constructor_invariants c ops) as [Hdef Hlen].
  fold this in Hdef, Hlen.
  pose proof (keys_sorted_invariant c ops Hc) as Hs. fold this in Hs.
  destruct (lookup_present this k Hc Hsep Hdef Hlen Hs Hk Hin)
    as (index & v & Hnk & Hnv & _ & Hidx & _).
  rewrite (indexOfKey_defined _ _ Hk) in Hidx. injection Hidx as Hidx.
  exists (step this (Remove k)).
  assert (step this (Remove k)
          = {| keys := splice index 1 [] (keys this);
               values := splice index 1 [] (values this);
               comparator := comparator this |}) as Estep.
  { unfold step. rewrite (remove_defined _ _ Hk). cbv zeta. rewrite Hidx.
    destruct (Z.leb_spec 0 (Z.of_nat index)); [|lia].
    now rewrite Nat2Z.id. }
  assert (~ In k (keys (step this (Remove k)))) as Hgone.
  { rewrite Estep. cbn [keys]. now apply NoDup_delete_at. }
  split.
  { rewrite Estep, (remove_defined _ _ Hk). cbv zeta. rewrite Hidx.
    destruct (Z.leb_spec 0 (Z.of_nat index)); [|lia].
    now rewrite Nat2Z.id. }
  split; [exact Hgone|].
  destruct (run_step_invariants c ops (Remove k)) as [Hdef' _].
  fold this in Hdef'.
  destruct (lookup_absent (step this (Remove k)) k) as [Hi Hg];
    try rewrite step_comparator; try assumption.
  split; [exact Hg|]. split; [exact Hi|].
  rewrite Estep. unfold count. cbn [keys].
  rewrite length_splice_delete.
  assert (index < length (keys this))%nat
    by (apply nth_error_Some; now rewrite Hnk).
  destruct (Nat.ltb_spec index (length (keys this))); lia.
Qed.

(** X8: add and remove. Under a consistent comparator that gives 0 only
    for identical keys, adding an entry under a truthy key that the list
    does not hold yet and removing that key again gives back the list as
    it was. *)
Theorem remove_after_add_restores :
  forall c ops (k : TKey) (v : TValue),
    let this := run (constructor c) ops in
    Consistent (comparator this) -> Separating (comparator this) ->
    toBoolean k = true -> toBoolean v = true ->
    ~ In k (keys this) ->
    exists added,
      add this k v = Return added /\ remove added k = Return (true, this).
Proof.
  intros c ops k v this Hc Hsep Hk Hv Hfresh.
  exists (step this (Add k v)).
  split; [unfold step; now rewrite (add_defined _ _ _ Hk Hv)|].
  destruct (run_step_invariants c ops (Add k v)) as [Hdef Hlen].
  destruct (run_constructor_invariants c ops) as [_ Hlen0].
  fold this in Hdef, Hlen, Hlen0.
  pose proof (run_step_sorted c ops (Add k v) Hc) as Hs. fold this in Hs.
  pose proof (scan_bound (comparator this) k (keys this)) as Hp.
  set (p := scan (comparator this) k (keys this) 0) in *.
  assert (step this (Add k v)
          = {| keys := splice p 0 [k] (keys this);
               values := splice p 0 [v] (values this);
               comparator := comparator this |}) as Eadd.
  { rewrite step_add, Hk, Hv. reflexivity. }
  rewrite Eadd in Hdef, Hlen, Hs |- *.
  set (added := {| keys := splice p 0 [k] (keys this);
                   values := splice p 0 [v] (values this);
                   comparator := comparator this |}) in *.
  assert (In k (keys added)) as Hin
    by (apply In_splice_insert; now left).
  destruct (lookup_present added k Hc Hsep Hdef Hlen Hs Hk Hin) as
    (index & value & Hnk & _ & _ & Hidx & _).
  apply inserted_index in Hnk; [|exact Hp | exact Hfresh]. subst index.
  unfold remove. rewrite Hk, Hidx. cbn [negb bind].
  destruct (Z.leb_spec 0 (Z.of_nat p)); [|lia].
  rewrite Nat2Z.id. unfold added. cbn [keys values comparator].
  rewrite !delete_inserted by lia.
  now destruct this.
Qed.

End SortedListRoundTrips.

(** * The default comparator and number keys *)

Section NumberOrder.
Import SortedList.

(** X9: the default comparator orders numbers as the integers are
    ordered; on truthy numbers it is consistent and gives 0 only for
    identical keys. [undefined] compares equal to every key, and [null]
    compares as [0] does. *)
Theorem DEFAULT_COMPARATOR_orders_numbers :
  (forall a b : Z,
     DEFAULT_COMPARATOR (js a) (js b)
     = match a ?= b with Lt => -1 | Eq => 0 | Gt => 1 end)
  /\ Consistent (TKey := Js Z) DEFAULT_COMPARATOR
  /\ Separating (TKey := Js Z) DEFAULT_COMPARATOR
  /\ (forall x : Js Z,
        DEFAULT_COMPARATOR undefined x = 0
        /\ DEFAULT_COMPARATOR x undefined = 0)
  /\ (forall x : Js Z,
        DEFAULT_COMPARATOR null x = DEFAULT_COMPARATOR (js 0) x
        /\ DEFAULT_COMPARATOR x null = DEFAULT_COMPARATOR x (js 0)).
Proof.
  split.
  { intros a b. rewrite DEFAULT_COMPARATOR_number.
    destruct (Z.compare_spec a b), (Z.ltb_spec a b), (Z.ltb_spec b a);
      try reflexivity; lia. }
  split; [exact DEFAULT_COMPARATOR_consistent|].
  split; [exact DEFAULT_COMPARATOR_separating|].
  split; intros [| |x]; split; reflexivity.
Qed.

(** X10: with no comparator supplied, the number keys of a list built
    by [add] and [remove] are in ascending order: a key at a smaller
    index is a smaller or equal number. *)
Theorem number_keys_ascending :
  forall (ops : list (Operation (Js Z) (Js Z))) (i j : nat) (a b : Js Z),
    let this := run (constructor None) ops in
    (i < j)%nat ->
    nth_error (keys this) i = Some a ->
    nth_error (keys this) j = Some b ->
    exists x y : Z, a = js x /\ b = js y /\ x <= y.
Proof.
  intros ops i j a b this Hij Ha Hb.
  pose proof (keys_sorted_with_default_comparator ops) as Hs.
  fold this in Hs.
  pose proof (sorted_nth (TKey := Js Z) _ _ i j a b Hs Hij Ha Hb) as Hle.
  destruct (run_constructor_invariants (TKey := Js Z) (TValue := Js Z)
              None ops) as [[Hdk _] _].
  fold this in Hdk. rewrite Forall_forall in Hdk.
  destruct (defined_number a (Hdk _ (nth_error_In _ _ Ha))) as (x & -> & _).
  destruct (defined_number b (Hdk _ (nth_error_In _ _ Hb))) as (y & -> & _).
  exists x, y. split; [reflexivity|]. split; [reflexivity|].
  rewrite DEFAULT_COMPARATOR_number in Hle.
  destruct (Z.ltb_spec x y), (Z.ltb_spec y x); lia.
Qed.

End NumberOrder.

(** * Iterators *)

Section ListIteratorFacts.
Import ListIterator.
Context {TValue : Type} `{JsType TValue}.

Implicit Types (this : ListIterator.t TValue) (array : list TValue).

Lemma moveNextTimes_state (n : nat) this :
  moveNextTimes n this
  = {| values := values this; index := index this + Z.of_nat n |}.
Proof.
  unfold moveNextTimes.
  induction n as [|n IH].
  - simpl. rewrite Z.add_0_r. now destruct this.
  - rewrite Nat.iter_succ, IH. unfold moveNext. cbn [fst values index].
    f_equal. lia.
Qed.

Lemma ListIterator_current_after_moveNext array (n : nat) (x : TValue) :
  nth_error array n = Some x ->
  current (fst (moveNext (moveNextTimes n (constructor array)))) = Return x.
Proof.
  intros Hx.
  rewrite moveNextTimes_state.
  unfold moveNext, current, constructor. cbn [fst values index].
  assert (n < length array)%nat
    by (apply nth_error_Some; now rewrite Hx).
  destruct (Z.ltb_spec (-1 + Z.of_nat n + 1) 0); [lia|].
  destruct (Z.ltb_spec (Z.of_nat (length array)) (-1 + Z.of_nat n + 1));
    [lia|].
  replace (Z.to_nat (-1 + Z.of_nat n + 1)) with n by lia.
  now rewrite (nth_nth_error undefined _ _ _ Hx).
Qed.

(** X11: walking an array. On a new iterator the first [length] calls
    of [moveNext] return [true] and every later call returns [false];
    right after the call number [n + 1] has returned [true], [current] is
    the element at index [n]. [hasNext] tells what the next [moveNext]
    returns, and [reset] makes the iterator new again. *)
Theorem ListIterator_walks_the_array :
  forall array (n : nat),
    let this := moveNextTimes n (constructor array) in
    snd (moveNext this) = Return (n <? length array)%nat
    /\ hasNext this = snd (moveNext this)
    /\ (forall x, nth_error array n = Some x ->
                  current (fst (moveNext this)) = Return x)
    /\ reset this = constructor array.
Proof.
  intros array n this. subst this.
  rewrite moveNextTimes_state.
  unfold moveNext, hasNext, current, reset, constructor.
  cbn [fst snd values index].
  assert ((-1 + Z.of_nat n + 1 <? Z.of_nat (length array))
          = (n <? length array)%nat) as E.
  { destruct (Z.ltb_spec (-1 + Z.of_nat n + 1) (Z.of_nat (length array))),
      (Nat.ltb_spec n (length array)); try reflexivity; lia. }
  rewrite E.
  repeat split.
  intros x Hx.
  pose proof (ListIterator_current_after_moveNext array n x Hx) as Hcur.
  rewrite moveNextTimes_state in Hcur. exact Hcur.
Qed.

(** X12: the ends of the walk. [current] is [null] before the first
    [moveNext], and [null] again once [moveNext] has been called at
    least twice more than the array is long. Right after [moveNext] has
    returned [false] for the first time, when the index equals the
    length, [current] is [undefined]: the test [length < index] lets
    this index through. *)
Theorem ListIterator_current_at_the_ends :
  forall array (n : nat),
    current (constructor array) = Return null
    /\ current (moveNextTimes (S (length array)) (constructor array))
       = Return undefined
    /\ ((S (length array) < n)%nat ->
        current (moveNextTimes n (constructor array)) = Return null).
Proof.
  intros array n.
  split; [reflexivity|].
  rewrite !moveNextTimes_state.
  unfold current, constructor. cbn [values index].
  split.
  - destruct (Z.ltb_spec (-1 + Z.of_nat (S (length array))) 0); [lia|].
    destruct (Z.ltb_spec (Z.of_nat (length array))
                (-1 + Z.of_nat (S (length array)))); [lia|].
    replace (Z.to_nat (-1 + Z.of_nat (S (length array))))
      with (length array) by lia.
    now rewrite nth_overflow by lia.
  - intros Hn.
    destruct (Z.ltb_spec (-1 + Z.of_nat n) 0); [reflexivity|].
    destruct (Z.ltb_spec (Z.of_nat (length array)) (-1 + Z.of_nat n));
      [reflexivity | lia].
Qed.

End ListIteratorFacts.

Section SortedListIteratorFacts.
Import SortedList.
Context {TKey TValue : Type} `{JsType TKey} `{JsType TValue}
        `{JsRelational TKey}.

Implicit Types (this : t TKey TValue) (c : option (Comparator TKey)).
Implicit Types (ops : list (Operation TKey TValue)).

Lemma SortedListIterator_state (n : nat)
  (it : SortedListIterator.t TKey TValue) :
  SortedListIterator.moveNextTimes n it
  = {| SortedListIterator.keys := SortedListIterator.keys it;
       SortedListIterator.values := SortedListIterator.values it;
       SortedListIterator.index :=
         SortedListIterator.index it + Z.of_nat n |}.
Proof.
  unfold SortedListIterator.moveNextTimes.
  induction n as [|n IH].
  - simpl. rewrite Z.add_0_r. now destruct it.
  - rewrite Nat.iter_succ, IH. unfold SortedListIterator.moveNext.
    cbn [fst SortedListIterator.keys SortedListIterator.values
           SortedListIterator.index].
    f_equal. lia.
Qed.

(** X13: iterating a list built by [add] and [remove]. On the iterator
    of [getIterator] the first [count] calls of [moveNext] return [true]
    and the later ones [false]; right after the call number [n + 1] has
    returned [true], [current] is the object that holds the key and the
    value stored at index [n]. The iterators of [getKeys] and [getValues]
    give that key and that value in the same way. *)
Theorem getIterator_walks_the_entries :
  forall c ops (n : nat),
    let this := run (constructor c) ops in
    let it := SortedListIterator.moveNextTimes n (getIterator this) in
    snd (SortedListIterator.moveNext it) = Return (n <? count this)%nat
    /\ SortedListIterator.hasNext it = snd (SortedListIterator.moveNext it)
    /\ (forall (k : TKey) (v : TValue),
          nth_error (entries this) n = Some (k, v) ->
          SortedListIterator.current (fst (SortedListIterator.moveNext it))
          = Return (js {| key := k; value := v |})
          /\ ListIterator.current
               (fst (ListIterator.moveNext
                       (ListIterator.moveNextTimes n (getKeys this))))
             = Return k
          /\ ListIterator.current
               (fst (ListIterator.moveNext
                       (ListIterator.moveNextTimes n (getValues this))))
             = Return v).
Proof.
  intros c ops n this it. subst it.
  destruct (run_constructor_invariants c ops) as [_ Hlen].
  fold this in Hlen.
  rewrite SortedListIterator_state.
  unfold SortedListIterator.moveNext, SortedListIterator.hasNext,
    SortedListIterator.current, getIterator, SortedListIterator.constructor.
  cbn [fst snd SortedListIterator.keys SortedListIterator.values
         SortedListIterator.index].
  assert ((-1 + Z.of_nat n + 1 <? Z.of_nat (length (keys this)))
          = (n <? count this)%nat) as E.
  { unfold count.
    destruct (Z.ltb_spec (-1 + Z.of_nat n + 1)
                (Z.of_nat (length (keys this)))),
      (Nat.ltb_spec n (length (keys this))); try reflexivity; lia. }
  rewrite E.
  split; [reflexivity|]. split; [reflexivity|].
  intros k v Hkv.
  destruct (nth_error_combine _ _ _ _ _ Hkv) as [Hk Hv].
  assert (n < length (keys this))%nat
    by (apply nth_error_Some; now rewrite Hk).
  split.
  - destruct (Z.ltb_spec (-1 + Z.of_nat n + 1) 0); [lia|].
    destruct (Z.ltb_spec (Z.of_nat (length (keys this)))
                (-1 + Z.of_nat n + 1)); [lia|].
    replace (Z.to_nat (-1 + Z.of_nat n + 1)) with n by lia.
    now rewrite (nth_nth_error undefined _ _ _ Hk),
      (nth_nth_error undefined _ _ _ Hv).
  - split.
    + now apply ListIterator_current_after_moveNext.
    + now apply ListIterator_current_after_moveNext.
Qed.

(** X14: the end of the walk over a list. On the iterator of
    [getIterator], [current] is [null] before the first [moveNext]; right
    after [moveNext] has returned [false] for the first time it is not
    [null] but an object whose key and value are [undefined]. *)
Theorem getIterator_current_at_the_ends :
  forall c ops,
    let this := run (constructor c) ops in
    SortedListIterator.current (getIterator this) = Return js_null
    /\ SortedListIterator.current
         (SortedListIterator.moveNextTimes (S (count this))
            (getIterator this))
       = Return (js {| key := undefined; value := undefined |}).
Proof.
  intros c ops this.
  destruct (run_constructor_invariants c ops) as [_ Hlen].
  fold this in Hlen.
  split; [reflexivity|].
  rewrite SortedListIterator_state.
  unfold SortedListIterator.current, getIterator,
    SortedListIterator.constructor, count.
  cbn [SortedListIterator.keys SortedListIterator.values
         SortedListIterator.index].
  destruct (Z.ltb_spec (-1 + Z.of_nat (S (length (keys this)))) 0); [lia|].
  destruct (Z.ltb_spec (Z.of_nat (length (keys this)))
              (-1 + Z.of_nat (S (length (keys this))))); [lia|].
  replace (Z.to_nat (-1 + Z.of_nat (S (length (keys this)))))
    with (length (keys this)) by lia.
  rewrite nth_overflow by lia.
  now rewrite nth_overflow by lia.
Qed.

End SortedListIteratorFacts.

(** * More on count and countToArray *)






(** * html and plain *)

Section UtilsFacts.
Import Utils.
Context {any : Type}.

Lemma append_empty_right (s : string) : (s ++ "")%string = s.
Proof.
  induction s as [|ch s IH]; simpl; [reflexivity | now rewrite IH].
Qed.

Lemma append_associative (s1 s2 s3 : string) :
  ((s1 ++ s2) ++ s3)%string = (s1 ++ s2 ++ s3)%string.
Proof.
  induction s1 as [|ch s1 IH]; simpl; [reflexivity | now rewrite IH].
Qed.

Lemma concat_empty_app (a b : list string) :
  String.concat "" (a ++ b)
  = (String.concat "" a ++ String.concat "" b)%string.
Proof.
  induction a as [|x a IH].
  - reflexivity.
  - destruct a as [|y a].
    + destruct b as [|z b]; simpl.
      * now rewrite append_empty_right.
      * reflexivity.
    + change (String.concat "" ((x :: y :: a) ++ b))
        with (x ++ "" ++ String.concat "" ((y :: a) ++ b))%string.
      rewrite IH. simpl. now rewrite append_associative.
Qed.

(** X18: the plain text of parts put one after the other is the plain
    text of the first ones followed by the plain text of the others; of
    no parts, of [null] and of [undefined] it is the empty string. *)
Theorem plain_of_parts_in_a_row :
  forall a b : list SymbolDisplayPart,
    plain (js (a ++ b)) = (plain (js a) ++ plain (js b))%string
    /\ plain (js []) = EmptyString
    /\ plain js_null = EmptyString
    /\ plain js_undefined = EmptyString.
Proof.
  intros a b. repeat split.
  unfold plain. rewrite map_app. apply concat_empty_app.
Qed.

(** X19: [html] of an array of parts is a [div] of class ['ts-symbol ']
    followed by the class name; its children are as many as the parts,
    the child at an index a [span] without children that has the text of
    the part there and its kind as class; read one after the other the
    texts of the children are [plain] of the parts. Of [null] and of
    [undefined], [html] is the empty object. *)
Theorem html_spans_spell_plain :
  forall (parts : list SymbolDisplayPart) (className : string),
    exists children : list (@IHTMLContentElement any),
      html (js parts) (Some className)
      = element None None (Some ("ts-symbol " ++ className)%string) None None
          (Some "div"%string) (Some children) None
      /\ html (js parts) None
         = element None None (Some "ts-symbol "%string) None None
             (Some "div"%string) (Some children) None
      /\ length children = length parts
      /\ (forall (i : nat) part,
            nth_error parts i = Some part ->
            nth_error children i
            = Some (element None (Some (text part)) (Some (kind part))
                      None None (Some "span"%string) None None))
      /\ String.concat ""
           (map (fun child => match elementText child with
                              | Some t => t
                              | None => EmptyString
                              end) children)
         = plain (js parts)
      /\ html js_null (Some className) = @emptyElement any
      /\ html js_undefined (Some className) = @emptyElement any.
Proof.
  intros parts className.
  eexists. split; [reflexivity|]. split; [reflexivity|].
  split; [apply length_map|].
  split.
  - intros i part Hpart. now rewrite nth_error_map, Hpart.
  - split; [|split; reflexivity].
    unfold plain. rewrite map_map. reflexivity.
Qed.

End UtilsFacts.

(** * The whitespace transform *)

Section StyleFacts.
Import Style.

Implicit Types (line contents tail : Text) (lines : list Text).

Lemma oneLine_app line1 line2 :
  oneLine line1 -> oneLine line2 -> oneLine (line1 ++ line2).
Proof. intros H1 H2. apply Forall_app. now split. Qed.

Lemma splitLines_oneLine line contents :
  oneLine line -> Forall oneLine (splitLines line contents).
Proof.
  revert line.
  induction contents as [contents IH] using (induction_ltof1 _ (@length N)).
  unfold ltof in IH.
  intros line Hline.
  destruct contents as [|c rest]; simpl.
  - now constructor.
  - destruct (N.eqb_spec c CR) as [->|Hcr].
    + destruct rest as [|d rest'].
      * constructor; [exact Hline | repeat constructor].
      * destruct (N.eqb_spec d LF).
        -- constructor; [exact Hline|]. apply IH; [simpl; lia | constructor].
        -- constructor; [exact Hline|]. apply IH; [simpl; lia | constructor].
    + destruct (N.eqb_spec c LF) as [->|Hlf].
      * constructor; [exact Hline|]. apply IH; [simpl; lia | constructor].
      * apply IH; [simpl; lia|].
        apply oneLine_app; [exact Hline | repeat constructor; assumption].
Qed.

Lemma splitLines_not_empty line contents : splitLines line contents <> [].
Proof.
  revert line.
  induction contents as [contents IH] using (induction_ltof1 _ (@length N)).
  unfold ltof in IH.
  intros line.
  destruct contents as [|c rest]; simpl; [discriminate|].
  destruct (c =? CR)%N.
  - destruct rest as [|d rest']; [discriminate|].
    destruct (d =? LF)%N; discriminate.
  - destruct (c =? LF)%N; [discriminate|].
    apply IH. simpl. lia.
Qed.

Lemma splitLines_prefix line prefix tail :
  oneLine prefix ->
  splitLines line (prefix ++ tail) = splitLines (line ++ prefix) tail.
Proof.
  intros Hprefix. revert line.
  induction Hprefix as [|c prefix [Hcr Hlf] _ IH]; intros line.
  - simpl. now rewrite app_nil_r.
  - cbn [app splitLines].
    destruct (N.eqb_spec c CR); [contradiction|].
    destruct (N.eqb_spec c LF); [contradiction|].
    rewrite IH, <- app_assoc. reflexivity.
Qed.

(** Splitting what was joined gives the lines back. *)
Lemma split_join lines :
  lines <> [] -> Forall oneLine lines -> split (join lines) = lines.
Proof.
  intros Hne Hall. unfold split.
  induction Hall as [|line lines Hline Hall IH]; [contradiction|].
  destruct lines as [|line' lines].
  - cbn [join]. rewrite <- (app_nil_r line) at 1.
    now rewrite splitLines_prefix.
  - change (join (line :: line' :: lines))
      with (line ++ LF :: join (line' :: lines)).
    rewrite splitLines_prefix by exact Hline.
    cbn [splitLines app]. change (LF =? CR)%N with false.
    change (LF =? LF)%N with true. cbv iota.
    f_equal. apply IH. discriminate.
Qed.

(** Joining the lines of a text without carriage return gives the text
    back. *)
Lemma join_splitLines line contents :
  ~ In CR contents -> join (splitLines line contents) = line ++ contents.
Proof.
  revert line.
  induction contents as [|c rest IH]; intros line Hcr.
  - simpl. now rewrite app_nil_r.
  - cbn [splitLines].
    destruct (N.eqb_spec c CR) as [->|_]; [exfalso; apply Hcr; now left|].
    assert (~ In CR rest) as Hrest by (intros Hin; apply Hcr; now right).
    destruct (N.eqb_spec c LF) as [->|_].
    + specialize (IH [] Hrest). cbn [app] in IH.
      pose proof (splitLines_not_empty [] rest) as Hne.
      destruct (splitLines [] rest) as [|l ls] eqn:E; [contradiction|].
      change (join (line :: l :: ls)) with (line ++ LF :: join (l :: ls)).
      now rewrite IH.
    + rewrite IH by exact Hrest. now rewrite <- app_assoc.
Qed.

Lemma join_no_CR lines : Forall oneLine lines -> ~ In CR (join lines).
Proof.
  intros Hall.
  induction Hall as [|line lines Hline Hall IH]; [intros []|].
  assert (~ In CR line) as Hl.
  { intros Hin. unfold oneLine in Hline. rewrite Forall_forall in Hline.
    now destruct (Hline _ Hin). }
  destruct lines as [|line' lines]; [exact Hl|].
  change (join (line :: line' :: lines))
    with (line ++ LF :: join (line' :: lines)).
  intros Hin. apply in_app_or in Hin.
  destruct Hin as [Hin|[Hin|Hin]]; [now apply Hl | discriminate Hin|].
  now apply IH.
Qed.

(** ** Spaces into tabs *)

Lemma startsWithSpaces_repeat (k n : nat) line :
  noSpaceFirst line ->
  startsWithSpaces k (repeat SPACE n ++ line) = (k <=? n)%nat.
Proof.
  intros Hline. revert n.
  induction k as [|k IH]; intros n; [reflexivity|].
  destruct n as [|n]; cbn [repeat app startsWithSpaces].
  - destruct line as [|c line]; [reflexivity|].
    simpl in Hline. now destruct (N.eqb_spec c SPACE).
  - change (SPACE =? SPACE)%N with true. cbn [andb]. apply IH.
Qed.

Lemma skipn_repeat_app (k n : nat) line :
  (k <= n)%nat ->
  skipn k (repeat SPACE n ++ line) = repeat SPACE (n - k) ++ line.
Proof.
  revert n.
  induction k as [|k IH]; intros n Hk.
  - now rewrite Nat.sub_0_r.
  - destruct n as [|n]; [lia|]. cbn [repeat app skipn].
    apply IH. lia.
Qed.

Lemma replaceSpaces_repeat (k t n : nat) line :
  noSpaceFirst line ->
  replaceSpaces k t (repeat SPACE n ++ line)
  = if (k <=? n)%nat then repeat TAB t ++ repeat SPACE (n - k) ++ line
    else repeat SPACE n ++ line.
Proof.
  intros Hline. unfold replaceSpaces.
  rewrite startsWithSpaces_repeat by exact Hline.
  destruct (Nat.leb_spec k n); [|reflexivity].
  now rewrite skipn_repeat_app.
Qed.

Lemma replaceSpaces_after_tab (k t : nat) line :
  replaceSpaces (S k) t (TAB :: line) = TAB :: line.
Proof. reflexivity. Qed.

(** Every line is some spaces followed by a text that does not start
    with a space. *)
Lemma leading_spaces line :
  exists (n : nat) rest,
    line = repeat SPACE n ++ rest /\ noSpaceFirst rest.
Proof.
  induction line as [|c line (n & rest & -> & Hrest)].
  - now exists 0%nat, [].
  - destruct (N.eqb_spec c SPACE) as [->|Hc].
    + now exists (S n), rest.
    + now exists 0%nat, (c :: repeat SPACE n ++ rest).
Qed.

Lemma quarter (n q : nat) :
  (4 * q <= n < 4 * q + 4)%nat -> (n / 4 = q)%nat.
Proof.
  intros Hn. symmetry.
  apply (Nat.div_unique n 4 q (n - 4 * q)); lia.
Qed.

Lemma quarters_at_least_seven (n : nat) :
  (28 <= n)%nat -> Nat.min (n / 4) 7 = 7%nat.
Proof.
  intros Hn. apply Nat.min_r.
  apply Nat.div_le_lower_bound; lia.
Qed.

Lemma convertLine_spaces (n : nat) rest :
  noSpaceFirst rest ->
  convertLine (repeat SPACE n ++ rest)
  = repeat TAB (Nat.min (n / 4) 7)
      ++ repeat SPACE (n - 4 * Nat.min (n / 4) 7) ++ rest.
Proof.
  intros Hrest. unfold convertLine.
  rewrite (replaceSpaces_repeat 28) by exact Hrest.
  destruct (Nat.leb_spec 28 n).
  { cbn [repeat app]. rewrite !replaceSpaces_after_tab.
    rewrite quarters_at_least_seven by lia.
    replace (n - 4 * 7)%nat with (n - 28)%nat by lia. reflexivity. }
  rewrite (replaceSpaces_repeat 24) by exact Hrest.
  destruct (Nat.leb_spec 24 n).
  { cbn [repeat app]. rewrite !replaceSpaces_after_tab.
    rewrite (quarter n 6) by lia. cbn [Nat.min].
    replace (n - 4 * 6)%nat with (n - 24)%nat by lia. reflexivity. }
  rewrite (replaceSpaces_repeat 20) by exact Hrest.
  destruct (Nat.leb_spec 20 n).
  { cbn [repeat app]. rewrite !replaceSpaces_after_tab.
    rewrite (quarter n 5) by lia. cbn [Nat.min].
    replace (n - 4 * 5)%nat with (n - 20)%nat by lia. reflexivity. }
  rewrite (replaceSpaces_repeat 16) by exact Hrest.
  destruct (Nat.leb_spec 16 n).
  { cbn [repeat app]. rewrite !replaceSpaces_after_tab.
    rewrite (quarter n 4) by lia. cbn [Nat.min].
    replace (n - 4 * 4)%nat with (n - 16)%nat by lia. reflexivity. }
  rewrite (replaceSpaces_repeat 12) by exact Hrest.
  destruct (Nat.leb_spec 12 n).
  { cbn [repeat app]. rewrite !replaceSpaces_after_tab.
    rewrite (quarter n 3) by lia. cbn [Nat.min].
    replace (n - 4 * 3)%nat with (n - 12)%nat by lia. reflexivity. }
  rewrite (replaceSpaces_repeat 8) by exact Hrest.
  destruct (Nat.leb_spec 8 n).
  { cbn [repeat app]. rewrite !replaceSpaces_after_tab.
    rewrite (quarter n 2) by lia. cbn [Nat.min].
    replace (n - 4 * 2)%nat with (n - 8)%nat by lia. reflexivity. }
  rewrite (replaceSpaces_repeat 4) by exact Hrest.
  destruct (Nat.leb_spec 4 n).
  { cbn [repeat app].
    rewrite (quarter n 1) by lia. cbn [Nat.min].
    replace (n - 4 * 1)%nat with (n - 4)%nat by lia. reflexivity. }
  rewrite (quarter n 0) by lia. cbn [Nat.min Nat.mul repeat app].
  now rewrite Nat.sub_0_r.
Qed.

Lemma oneLine_repeat (c : N) (n : nat) :
  c <> CR -> c <> LF -> oneLine (repeat c n).
Proof.
  intros Hcr Hlf. induction n as [|n IH]; constructor; auto.
Qed.

Lemma convertLine_oneLine line : oneLine line -> oneLine (convertLine line).
Proof.
  destruct (leading_spaces line) as (n & rest & -> & Hrest).
  intros Hline. apply Forall_app in Hline. destruct Hline as [_ Hr].
  rewrite convertLine_spaces by exact Hrest.
  repeat apply oneLine_app; try exact Hr;
    apply oneLine_repeat; discriminate.
Qed.

Lemma convertLine_twice line : convertLine (convertLine line) = convertLine line.
Proof.
  destruct (leading_spaces line) as (n & rest & -> & Hrest).
  rewrite convertLine_spaces by exact Hrest.
  destruct (Nat.min (n / 4) 7) as [|t] eqn:E.
  - cbn [repeat app Nat.mul]. rewrite Nat.sub_0_r.
    rewrite convertLine_spaces by exact Hrest. rewrite E.
    cbn [repeat app Nat.mul]. now rewrite Nat.sub_0_r.
  - cbn [repeat app].
    apply (convertLine_spaces 0 (TAB :: _)). discriminate.
Qed.

Lemma converted_lines (convert : bool) contents :
  let lines := if convert then map convertLine (split contents)
               else split contents in
  lines <> [] /\ Forall oneLine lines.
Proof.
  pose proof (splitLines_not_empty [] contents) as Hne.
  pose proof (splitLines_oneLine [] contents (Forall_nil _)) as Hall.
  fold (split contents) in Hne, Hall.
  destruct convert; cbv zeta; [|now split].
  split.
  - destruct (split contents); [contradiction | discriminate].
  - apply Forall_map.
    apply (Forall_impl _ convertLine_oneLine Hall).
Qed.

(** X20: turning spaces into tabs. In a line that starts with [n]
    spaces the transform puts a tab for every four of them, seven tabs at
    most, and leaves the other spaces and the rest of the line as they
    are; a line that does not start with a space is left as it is, and
    converting a converted line changes nothing. *)
Theorem convertLine_puts_tabs_for_spaces :
  forall (n : nat) (rest : Text),
    noSpaceFirst rest ->
    convertLine (repeat SPACE n ++ rest)
    = repeat TAB (Nat.min (n / 4) 7)
        ++ repeat SPACE (n - 4 * Nat.min (n / 4) 7) ++ rest
    /\ convertLine rest = rest
    /\ convertLine (convertLine (repeat SPACE n ++ rest))
       = convertLine (repeat SPACE n ++ rest).
Proof.
  intros n rest Hrest.
  split; [now apply convertLine_spaces|].
  split; [exact (convertLine_spaces 0 rest Hrest) | apply convertLine_twice].
Qed.

(** X21: unifying the line ends. For a file that is not a directory,
    without [complain], the text of the new contents holds no carriage
    return; its lines are the lines of the text of the old contents,
    converted when [whitespace] is set; and without [whitespace] a text
    that holds no carriage return is written back as it was read. (This
    is about the text that the buffer decodes to: bytes that are not
    UTF-8 are replaced when the buffer is decoded, which is not modelled.) *)
Theorem style_unifies_line_ends :
  forall (opts : Options) (file : File),
    isDirectory file = false -> complain opts = false ->
    let out := style opts file in
    ~ In CR (contents out)
    /\ split (contents out)
       = (if whitespace opts then map convertLine (split (contents file))
          else split (contents file))
    /\ path out = path file
    /\ (whitespace opts = false -> ~ In CR (contents file) ->
        contents out = contents file).
Proof.
  intros opts file Hdir Hcomplain out. subst out.
  unfold style. rewrite Hdir, Hcomplain. cbn [contents path].
  destruct (converted_lines (whitespace opts) (contents file)) as [Hne Hall].
  split; [now apply join_no_CR|].
  split; [now apply split_join|].
  split; [reflexivity|].
  intros Hw Hcr. rewrite Hw. unfold split.
  now rewrite join_splitLines by exact Hcr.
Qed.

(** X22: running the transform on its own result changes nothing, for
    every setting of the options and every file. *)
Theorem style_twice_is_style_once :
  forall (opts : Options) (file : File),
    style opts (style opts file) = style opts file.
Proof.
  intros opts file. unfold style.
  destruct (isDirectory file) eqn:Hdir; [now rewrite Hdir|].
  destruct (complain opts) eqn:Hcomplain; [now rewrite Hdir|].
  cbn [isDirectory contents path].
  destruct (converted_lines (whitespace opts) (contents file)) as [Hne Hall].
  rewrite split_join by assumption.
  destruct (whitespace opts); [|reflexivity].
  rewrite map_map.
  do 2 f_equal. apply map_ext. intros line. apply convertLine_twice.
Qed.

End StyleFacts.

(** * Instances of the further properties *)

Section FurtherInstances.
Import SortedList.

(** X2, an instance: the entry of key [7] in [sampleList]. *)
Lemma stored_entry_instance :
  In (Add (js 7) (js 70)) sampleOps
  /\ toBoolean (js 7 : Js Z) = true /\ toBoolean (js 70 : Js Z) = true.
Proof.
  apply (stored_entries_were_added (TKey := Js Z) (TValue := Js Z)
           None sampleOps (js 7) (js 70)).
  right; right; left; reflexivity.
Defined.


(** X4, an instance: looking up [7] in [sampleList]. *)
Lemma lookup_instance :
  ((exists x, In x (keys sampleList) /\ comparator sampleList x (js 7) = 0) ->
   exists (index : nat) (x v : Js Z),
     indexOfKey sampleList (js 7) = Return (Z.of_nat index)
     /\ nth_error (keys sampleList) index = Some x
     /\ comparator sampleList x (js 7) = 0
     /\ nth_error (values sampleList) index = Some v
     /\ getValue sampleList (js 7) = Return v /\ v <> null)
  /\ ((forall x, In x (keys sampleList) ->
                 comparator sampleList x (js 7) <> 0) ->
      indexOfKey sampleList (js 7) = Return (-1)
      /\ getValue sampleList (js 7) = Return null).
Proof.
  apply (lookup_finds_a_key_that_compares_equal
           (TKey := Js Z) (TValue := Js Z) None sampleOps (js 7)).
  - exact DEFAULT_COMPARATOR_consistent.
  - reflexivity.
Defined.

(** X5, an instance: adding [4] to [sampleList] and looking it up. *)
Lemma getValue_after_add_instance :
  exists this',
    add sampleList (js 4) (js 40) = Return this'
    /\ getValue this' (js 4) = Return (js 40).
Proof.
  apply (getValue_after_add (TKey := Js Z) (TValue := Js Z)
           None sampleOps (js 4) (js 40)).
  - exact DEFAULT_COMPARATOR_consistent.
  - exact DEFAULT_COMPARATOR_separating.
  - reflexivity.
  - reflexivity.
  - intros [E|[E|[E|[]]]]; discriminate E.
Defined.

(** X6, an instance: removing [7] from [sampleList]. *)
Lemma remove_instance :
  exists (found : bool) this',
    remove sampleList (js 7) = Return (found, this')
    /\ (found = true ->
        exists (index : nat) (x v : Js Z),
          nth_error (keys sampleList) index = Some x
          /\ nth_error (values sampleList) index = Some v
          /\ comparator sampleList x (js 7) = 0
          /\ entries this'
             = firstn index (entries sampleList)
                 ++ skipn (S index) (entries sampleList)
          /\ S (count this') = count sampleList)
    /\ (found = false -> this' = sampleList)
    /\ (Consistent (comparator sampleList) ->
        (found = true
         <-> exists x, In x (keys sampleList)
                       /\ comparator sampleList x (js 7) = 0)).
Proof.
  apply (remove_deletes_one_entry (TKey := Js Z) (TValue := Js Z)
           None sampleOps (js 7)).
  reflexivity.
Defined.

(** X7, an instance: removing [3] from the keys [3, 5, 7]. *)
Lemma lookup_after_remove_instance :
  exists this',
    remove (run (constructor None) distinctOps) (js 3) = Return (true, this')
    /\ ~ In (js 3) (keys this')
    /\ getValue this' (js 3) = Return null
    /\ indexOfKey this' (js 3) = Return (-1)
    /\ S (count this') = count (run (constructor None) distinctOps).
Proof.
  apply (lookup_after_remove (TKey := Js Z) (TValue := Js Z)
           None distinctOps (js 3)).
  - exact DEFAULT_COMPARATOR_consistent.
  - exact DEFAULT_COMPARATOR_separating.
  - reflexivity.
  - repeat constructor; simpl; intuition discriminate.
  - left; reflexivity.
Defined.

(** X8, an instance: adding [4] to [sampleList] and removing it. *)
Lemma remove_after_add_instance :
  exists added,
    add sampleList (js 4) (js 40) = Return added
    /\ remove added (js 4) = Return (true, sampleList).
Proof.
  apply (remove_after_add_restores (TKey := Js Z) (TValue := Js Z)
           None sampleOps (js 4) (js 40)).
  - exact DEFAULT_COMPARATOR_consistent.
  - exact DEFAULT_COMPARATOR_separating.
  - reflexivity.
  - reflexivity.
  - intros [E|[E|[E|[]]]]; discriminate E.
Defined.

(** X10, an instance: the first and the last key of [sampleList]. *)
Lemma number_keys_ascending_instance :
  exists x y : Z, js 3 = js x /\ js 7 = js y /\ x <= y.
Proof.
  apply (number_keys_ascending sampleOps 0 2 (js 3) (js 7));
    [lia | reflexivity | reflexivity].
Defined.

End FurtherInstances.

Section CountAndStyleInstances.




(** X20, an instance: nine spaces before an [a]. *)
Lemma convertLine_instance :
  Style.convertLine (repeat Style.SPACE 9 ++ [97%N])
  = repeat Style.TAB (Nat.min (9 / 4) 7)
      ++ repeat Style.SPACE (9 - 4 * Nat.min (9 / 4) 7) ++ [97%N]
  /\ Style.convertLine [97%N] = [97%N]
  /\ Style.convertLine (Style.convertLine (repeat Style.SPACE 9 ++ [97%N]))
     = Style.convertLine (repeat Style.SPACE 9 ++ [97%N]).
Proof.
  apply (convertLine_puts_tabs_for_spaces 9 [97%N]). discriminate.
Defined.

(** X21, an instance: two lines, the first indented by four spaces and
    ended by a carriage return and a line feed. *)
Lemma style_instance :
  let opts := {| Style.complain := false; Style.whitespace := true |} in
  ~ In Style.CR (Style.contents (Style.style opts Style.sampleFile))
  /\ Style.split (Style.contents (Style.style opts Style.sampleFile))
     = map Style.convertLine (Style.split (Style.contents Style.sampleFile))
  /\ Style.path (Style.style opts Style.sampleFile)
     = Style.path Style.sampleFile
  /\ (Style.whitespace opts = false ->
      ~ In Style.CR (Style.contents Style.sampleFile) ->
      Style.contents (Style.style opts Style.sampleFile)
      = Style.contents Style.sampleFile).
Proof.
  apply (style_unifies_line_ends
           {| Style.complain := false; Style.whitespace := true |}
           Style.sampleFile);
    reflexivity.
Defined.

Example style_sampleFile :
  Style.contents
    (Style.style {| Style.complain := false; Style.whitespace := true |}
       Style.sampleFile)
  = [9; 97; 10; 98]%N.
Proof. reflexivity. Qed.

End CountAndStyleInstances.
